(** * The ui-keyring facade (packages/ui-keyring/src/index.ts)

    A shallow embedding of the [Keyring] class: the metadata objects, the
    two observable stores, the persisted key/value records, the pair
    registry, and the facade methods that work on them.  Mutable objects
    are threaded explicitly; a thrown exception is an [inl] result. *)

From Stdlib Require Import ZArith String Ascii List Lia.
From stdpp Require Import gmap strings list fin_maps.

Local Open Scope Z_scope.

(** ** JavaScript values held in metadata objects *)

(** [KeyringJson$Meta] is [{ [index: string]: any }]; the facade only reads
    flags and timestamps out of it, so primitives are enough. *)
Inductive JsValue : Type :=
| JUndefined
| JNull
| JBool (b : bool)
| JNumber (n : Z)
| JString (s : string).

#[global] Instance JsValue_eq_dec : EqDecision JsValue.
Proof. solve_decision. Defined.

(** ToBoolean: what [!v] and [if (v)] look at. *)
Definition truthy (v : JsValue) : bool :=
  match v with
  | JUndefined => false
  | JNull => false
  | JBool b => b
  | JNumber n => negb (n =? 0)
  | JString s => negb (String.eqb s "")
  end.

(** [v === true] *)
Definition isTrue (v : JsValue) : bool :=
  match v with
  | JBool true => true
  | _ => false
  end.

Abbreviation Meta := (gmap string JsValue).

(** Property read [meta.k]: a missing property reads as [undefined]. *)
Definition getProp (m : Meta) (k : string) : JsValue :=
  default JUndefined (m !! k).

(** [Object.keys(meta).forEach((key) => { target[key] = meta[key]; })] *)
Definition assignAll (meta target : Meta) : Meta :=
  map_fold (fun k v acc => <[k := v]> acc) target meta.

(** ** Records *)

(** [KeyringJson] / [KeyringPair$Json]: [encoded] is only present on an
    exported pair. *)
Record KeyringJson : Type := mkJson {
  address : string;
  encoded : option string;
  meta : Meta
}.

Definition setJsonMeta (m : Meta) (json : KeyringJson) : KeyringJson :=
  {| address := address json; encoded := encoded json; meta := m |}.

(** [KeyringSectionOption]; [value] is [string | null]. *)
Record KeyringSectionOption : Type := mkOption {
  className : option string;
  name : string;
  key : string;
  text : string;
  value : option string
}.

Abbreviation KeyringSectionOptions := (list KeyringSectionOption).

(** [SingleAddress]: what an observable store keeps per address. *)
Record SingleAddress : Type := mkSingle {
  json : KeyringJson;
  option_ : KeyringSectionOption
}.

Record KeyringOptions : Type := mkOptions {
  account : KeyringSectionOptions;
  address_ : KeyringSectionOptions;
  all : KeyringSectionOptions;
  recent : KeyringSectionOptions;
  testing : KeyringSectionOptions
}.

Definition emptyOptions : KeyringOptions :=
  {| account := []; address_ := []; all := []; recent := []; testing := [] |}.

Inductive Error : Type :=
| WrongPassword
| TypeError
| InvalidAddress
| MalformedExport
| AssertionError (message : string).

Abbreviation Result A := (Error + A)%type.

(** ** Strings *)

(** [s.split(sep)] for a one-character separator. *)
Fixpoint splitOn (sep : ascii) (s : string) : list string :=
  match s with
  | EmptyString => [EmptyString]
  | String c rest =>
      if Ascii.eqb c sep then EmptyString :: splitOn sep rest
      else match splitOn sep rest with
           | [] => [String c EmptyString]
           | w :: ws => String c w :: ws
           end
  end.

(** [const [, hexAddr] = key.split(':')]; [None] is [undefined]. *)
Definition hexAddrOf (k : string) : option string :=
  match splitOn ":" k with
  | _ :: h :: _ => Some h
  | _ => None
  end.

(** [hexAddr.substr(0, 2) !== '0x'] negated. *)
Definition startsWith0x (h : string) : bool :=
  String.eqb (substring 0 2 h) "0x".

Definition lowerAscii (c : ascii) : ascii :=
  let n := nat_of_ascii c in
  if (Nat.leb 65 n && Nat.leb n 90)%bool then ascii_of_nat (n + 32) else c.

(** [name.toLowerCase()] on ASCII names. *)
Fixpoint toLowerCase (s : string) : string :=
  match s with
  | EmptyString => EmptyString
  | String c rest => String (lowerAscii c) (toLowerCase rest)
  end.

(** ** External collaborators

    The cryptographic pair and the pair registry come from
    @polkadot/keyring, the hex helpers from @polkadot/util; the facade
    only calls them.  They are an interface here, with [None] standing
    for a call that throws. *)
Class Lib : Type := {
  Pair : Type;
  Registry : Type;
  (** address codec; [encodeAddress] asserts that the key has a length it
      knows before it encodes, and [encodable] is that assertion *)
  decodeAddress : string -> option (list Byte.byte);
  encodeAddress : list Byte.byte -> string;
  encodable : list Byte.byte -> bool;
  isHex : string -> bool;
  hexToU8a : string -> list Byte.byte;
  (** KeyringPair; [pair_writeMeta m p] is the pair [p] once its metadata
      object holds the properties [m] (a write through a shared
      reference, not a library call) *)
  pair_address : Pair -> string;
  pair_getMeta : Pair -> Meta;
  pair_isLocked : Pair -> bool;
  pair_lock : Pair -> Pair;
  pair_decodePkcs8 : string -> Pair -> option Pair;
  pair_toJson : option string -> Pair -> KeyringJson;
  pair_writeMeta : Meta -> Pair -> Pair;
  (** the registry; [testKeyring] is the value of [testKeyring()] *)
  testKeyring : Registry;
  reg_getPairs : Registry -> list Pair;
  reg_addFromJson : KeyringJson -> Registry -> option (Pair * Registry);
  (** the hex form of an address used in persisted keys (./defaults) and
      the option derived for a stored entry (./options/item) *)
  toHex : string -> string;
  createOptionItem : string -> KeyringJson -> KeyringSectionOption
}.

(** What the facade relies on from a pair: [toJson] exports the pair's
    own address and hands out the pair's own metadata object, so that a
    property written through [json.meta] is a property of the pair. *)
Class PairLaws (L : Lib) : Prop := {
  toJson_address : forall pw p, address (pair_toJson pw p) = pair_address p;
  toJson_meta : forall pw p, meta (pair_toJson pw p) = pair_getMeta p;
  getMeta_writeMeta : forall m p, pair_getMeta (pair_writeMeta m p) = m;
  address_writeMeta : forall m p, pair_address (pair_writeMeta m p) = pair_address p
}.

(** The lock protocol of a pair: [lock] discards the key material,
    a successful [decodePkcs8] leaves the pair unlocked. *)
Class LockLaws (L : Lib) : Prop := {
  isLocked_lock : forall p, pair_isLocked (pair_lock p) = true;
  isLocked_decodePkcs8 :
    forall pw p p', pair_decodePkcs8 pw p = Some p' -> pair_isLocked p' = false
}.

(** ** Key names (./defaults) *)

(** Modelled from the spec: ./defaults is not among the sources.  Keys
    are namespaced by the fixed prefixes [account:] and [address:]; the
    canonical key of an address is the prefix followed by its hex form,
    the hex of the public key the address decodes to. *)
Definition ACCOUNT_PREFIX : string := "account:".
Definition ADDRESS_PREFIX : string := "address:".

Definition accountRegex (k : string) : bool := String.prefix ACCOUNT_PREFIX k.
Definition addressRegex (k : string) : bool := String.prefix ADDRESS_PREFIX k.

Definition accountKey `{Lib} (a : string) : string :=
  String.append ACCOUNT_PREFIX (toHex a).
Definition addressKey `{Lib} (a : string) : string :=
  String.append ADDRESS_PREFIX (toHex a).

(** ** Observable stores (./observable) *)

(** Modelled from the spec: the observable stores are not among the
    sources.  The current value maps an address to its entry and is
    iterated in insertion order; [add] is an upsert that keeps the place
    of an address already present, [remove] deletes and is silent on an
    absent address.  A store is the durable side of its entries: [add]
    also persists the record under the key of the address, which is where
    [saveAccountMeta] reads it back, and [remove] deletes that record. *)
Abbreviation SubjectInfo := (list (string * SingleAddress)).

(** [available[a]] *)
Fixpoint subject_get (a : string) (s : SubjectInfo) : option SingleAddress :=
  match s with
  | [] => None
  | (b, e) :: rest => if decide (b = a) then Some e else subject_get a rest
  end.

Fixpoint subject_put (a : string) (e : SingleAddress) (s : SubjectInfo) : SubjectInfo :=
  match s with
  | [] => [(a, e)]
  | (b, e') :: rest =>
      if decide (b = a) then (a, e) :: rest else (b, e') :: subject_put a e rest
  end.

Definition subject_add `{Lib} (a : string) (j : KeyringJson) (s : SubjectInfo) : SubjectInfo :=
  subject_put a {| json := j; option_ := createOptionItem a j |} s.

Definition subject_remove (a : string) (s : SubjectInfo) : SubjectInfo :=
  filter (fun p => p.1 <> a) s.

(** [Object.keys(available)] *)
Definition subject_keys (s : SubjectInfo) : list string := s.*1.

(** [Object.keys(available).map((address) => available[address])] *)
Definition subject_values (s : SubjectInfo) : list SingleAddress :=
  omap (fun a => subject_get a s) (subject_keys s).

(** ** State *)

Section Facade.
Context `{L : Lib}.

(** The module-level objects every [Keyring] object shares: the two
    observable stores, the persisted records of [store], the development
    flag of ./observable/development and the static
    [Keyring.hasCalledInitOptions]. *)
Record Globals : Type := mkGlobals {
  accounts : SubjectInfo;
  addresses : SubjectInfo;
  store : gmap string KeyringJson;
  isDevelopment : bool;
  hasCalledInitOptions : bool
}.

(** What a method of one [Keyring] object runs against: the shared objects
    and [this.state.keyring]. *)
Record St : Type := mkSt {
  globals :> Globals;
  keyring : Registry
}.

Definition set_accounts (s : SubjectInfo) (st : St) : St :=
  {| globals := {| accounts := s; addresses := addresses st; store := store st;
                   isDevelopment := isDevelopment st;
                   hasCalledInitOptions := hasCalledInitOptions st |};
     keyring := keyring st |}.

Definition set_addresses (s : SubjectInfo) (st : St) : St :=
  {| globals := {| accounts := accounts st; addresses := s; store := store st;
                   isDevelopment := isDevelopment st;
                   hasCalledInitOptions := hasCalledInitOptions st |};
     keyring := keyring st |}.

Definition set_store (m : gmap string KeyringJson) (st : St) : St :=
  {| globals := {| accounts := accounts st; addresses := addresses st; store := m;
                   isDevelopment := isDevelopment st;
                   hasCalledInitOptions := hasCalledInitOptions st |};
     keyring := keyring st |}.

Definition set_isDevelopment (b : bool) (st : St) : St :=
  {| globals := {| accounts := accounts st; addresses := addresses st; store := store st;
                   isDevelopment := b;
                   hasCalledInitOptions := hasCalledInitOptions st |};
     keyring := keyring st |}.

Definition set_hasCalledInitOptions (b : bool) (st : St) : St :=
  {| globals := {| accounts := accounts st; addresses := addresses st; store := store st;
                   isDevelopment := isDevelopment st;
                   hasCalledInitOptions := b |};
     keyring := keyring st |}.

Definition set_keyring (r : Registry) (st : St) : St :=
  {| globals := globals st; keyring := r |}.

(** ** A state and exception monad for the methods *)

Definition M (A : Type) : Type := St -> Result (A * St).

Definition ret {A} (x : A) : M A := fun st => inr (x, st).

Definition bind {A B} (m : M A) (k : A -> M B) : M B :=
  fun st => match m st with
            | inl e => inl e
            | inr (x, st') => k x st'
            end.

Definition throw {A} (e : Error) : M A := fun _ => inl e.

(** A collaborator call that may throw. *)
Definition orThrow {A} (e : Error) (o : option A) : M A :=
  match o with
  | Some x => ret x
  | None => throw e
  end.

Definition gets {A} (f : St -> A) : M A := fun st => inr (f st, st).

Definition modify (f : St -> St) : M unit := fun st => inr (tt, f st).

(** What a run came to: whether it returned, and the value and the state
    it returned with ([d] and [st0] when it threw). *)
Definition returned {A} (r : Result (A * St)) : bool :=
  match r with
  | inr _ => true
  | inl _ => false
  end.

Definition valueAfter {A} (d : A) (r : Result (A * St)) : A :=
  match r with
  | inr (x, _) => x
  | inl _ => d
  end.

Definition stateAfter {A} (st0 : St) (r : Result (A * St)) : St :=
  match r with
  | inr (_, st) => st
  | inl _ => st0
  end.

Notation "'let*' x ':=' m 'in' k" := (bind m (fun x => k))
  (at level 10, x pattern, m at level 100, k at level 200).
Notation "m ;; k" := (bind m (fun _ => k))
  (at level 100, k at level 200, right associativity).

(** [list.forEach(f)] with an effectful [f] *)
Fixpoint forEach {A} (f : A -> M unit) (l : list A) : M unit :=
  match l with
  | [] => ret tt
  | x :: rest => f x ;; forEach f rest
  end.

(** [store.set], [store.remove] *)
Definition store_set (k : string) (j : KeyringJson) : M unit :=
  modify (fun st => set_store (<[k := j]> (store st)) st).

Definition store_remove (k : string) : M unit :=
  modify (fun st => set_store (delete k (store st)) st).

(** [accounts.add], [addresses.add]: the entry, and the record persisted
    under the key of the address *)
Definition accounts_add (a : string) (j : KeyringJson) : M unit :=
  modify (fun st => set_accounts (subject_add a j (accounts st)) st) ;;
  store_set (accountKey a) j.

Definition addresses_add (a : string) (j : KeyringJson) : M unit :=
  modify (fun st => set_addresses (subject_add a j (addresses st)) st) ;;
  store_set (addressKey a) j.

(** [accounts.remove], [addresses.remove] *)
Definition accounts_remove (a : string) : M unit :=
  modify (fun st => set_accounts (subject_remove a (accounts st)) st) ;;
  store_remove (accountKey a).

Definition addresses_remove (a : string) : M unit :=
  modify (fun st => set_addresses (subject_remove a (addresses st)) st) ;;
  store_remove (addressKey a).

(** Building the key of [a] with [accountKey(a)] or [addressKey(a)] takes
    the hex form of [a], which decodes it: on a string that does not
    decode the call throws as [decodeAddress] does. *)
Definition accountKeyOf (a : string) : M string :=
  orThrow InvalidAddress (decodeAddress a) ;; ret (accountKey a).

Definition addressKeyOf (a : string) : M string :=
  orThrow InvalidAddress (decodeAddress a) ;; ret (addressKey a).

(** [encodeAddress(u8a)] where the bytes come out of a stored record *)
Definition encodeAddressOf (u8a : list Byte.byte) : M string :=
  if encodable u8a then ret (encodeAddress u8a) else throw InvalidAddress.

(** [store.each(visitor)]: the visitor is handed every record present
    when the enumeration starts, once. *)
Definition store_each (visitor : KeyringJson -> string -> M unit) : M unit :=
  fun st => forEach (fun kj => visitor kj.2 kj.1) (map_to_list (store st)) st.

(** ** Option lists *)

Definition createOptionHeader (n : string) : KeyringSectionOption :=
  {| className := Some "header disabled"%string;
     name := n;
     key := String.append "header-" (toLowerCase n);
     text := n;
     value := None |}.

(** A destructuring default, [{ flag = false }]: it replaces [undefined]
    only. *)
Definition orFalse (v : JsValue) : JsValue :=
  match v with
  | JUndefined => JBool false
  | _ => v
  end.

Definition entryIsTesting (e : SingleAddress) : bool :=
  truthy (orFalse (getProp (meta (json e)) "isTesting")).

Definition entryIsRecent (e : SingleAddress) : bool :=
  truthy (orFalse (getProp (meta (json e)) "isRecent")).

Definition push_account (o : KeyringSectionOption) (options : KeyringOptions) : KeyringOptions :=
  {| account := account options ++ [o]; address_ := address_ options;
     all := all options; recent := recent options; testing := testing options |}.

Definition push_testing (o : KeyringSectionOption) (options : KeyringOptions) : KeyringOptions :=
  {| account := account options; address_ := address_ options;
     all := all options; recent := recent options; testing := testing options ++ [o] |}.

Definition push_address (o : KeyringSectionOption) (options : KeyringOptions) : KeyringOptions :=
  {| account := account options; address_ := address_ options ++ [o];
     all := all options; recent := recent options; testing := testing options |}.

Definition push_recent (o : KeyringSectionOption) (options : KeyringOptions) : KeyringOptions :=
  {| account := account options; address_ := address_ options;
     all := all options; recent := recent options ++ [o]; testing := testing options |}.

Definition addAccounts (available : SubjectInfo) (options : KeyringOptions) : KeyringOptions :=
  foldl (fun opts e =>
           if negb (entryIsTesting e) then push_account (option_ e) opts
           else push_testing (option_ e) opts)
        options (subject_values available).

Definition addAddresses (available : SubjectInfo) (options : KeyringOptions) : KeyringOptions :=
  foldl (fun opts e =>
           if entryIsRecent e then push_recent (option_ e) opts
           else push_address (option_ e) opts)
        options (subject_values available).

(** [options.xs.length ? [ this.createOptionHeader(n) ] : []] *)
Definition headerIf (xs : KeyringSectionOptions) (n : string) : KeyringSectionOptions :=
  match xs with
  | [] => []
  | _ :: _ => [createOptionHeader n]
  end.

(** The body of the subscription set up by [initOptions]: the value
    handed to [optionsSubject.next] for the current stores. *)
Definition recomputeOptions (accs addrs : SubjectInfo) : KeyringOptions :=
  let options := emptyOptions in
  let options := addAccounts accs options in
  let options := addAddresses addrs options in
  let address' :=
    headerIf (address_ options) "Addresses" ++ address_ options ++
    headerIf (recent options) "Recent" ++ recent options in
  let account' :=
    headerIf (account options) "Accounts" ++ account options ++
    headerIf (testing options) "Development" ++ testing options in
  {| account := account'; address_ := address';
     all := account' ++ address';
     recent := recent options; testing := testing options |}.

(** [initOptions]: a second call only warns.  Once subscribed, every
    emission of a store republishes [recomputeOptions] of the two stores,
    so the published options are a function of the state. *)
Definition initOptions : M unit :=
  fun st =>
    if hasCalledInitOptions st then inr (tt, st)
    else inr (tt, set_hasCalledInitOptions true st).

Definition currentOptions (st : St) : KeyringOptions :=
  recomputeOptions (accounts st) (addresses st).

(** ** Facade methods *)

(** [addPairs] *)
Definition addPairs : M unit :=
  let* pairs := gets (fun st => reg_getPairs (keyring st)) in
  forEach (fun p =>
             let a := pair_address p in
             accounts_add a {| address := a; encoded := None; meta := pair_getMeta p |})
          pairs.

(** [keyring.addFromJson(json)], keeping the pair it returns *)
Definition keyring_addFromJson (j : KeyringJson) : M Pair :=
  let* r := gets (fun st => reg_addFromJson j (keyring st)) in
  let* pr := orThrow MalformedExport r in
  modify (set_keyring pr.2) ;;
  ret pr.1.

(** [if (!json.meta.whenCreated) { json.meta.whenCreated = Date.now(); }] *)
Definition stampWhenCreated (now : Z) (j : KeyringJson) : KeyringJson :=
  if truthy (getProp (meta j) "whenCreated") then j
  else setJsonMeta (<["whenCreated" := JNumber now]> (meta j)) j.

(** [addPair(json)] *)
Definition addPair (now : Z) (j : KeyringJson) : M unit :=
  let j := stampWhenCreated now j in
  keyring_addFromJson j ;;
  accounts_add (address j) j.

(** [backupAccount(pair, password)]: the result holds the export and the
    pair as the call leaves it. *)
Definition backupAccount (p : Pair) (password : string) : Result (KeyringJson * Pair) :=
  let p := if negb (pair_isLocked p) then pair_lock p else p in
  match pair_decodePkcs8 password p with
  | None => inl WrongPassword
  | Some p => inr (pair_toJson (Some password) p, p)
  end.

(** [saveAccount(pair, password?)].  [json.meta] is the pair's metadata
    object, so the timestamp written into the export is written into the
    pair: the result is the pair as the call leaves it. *)
Definition saveAccount (now : Z) (p : Pair) (password : option string) : M Pair :=
  let j := pair_toJson password p in
  let j' := stampWhenCreated now j in
  let p' := if truthy (getProp (meta j) "whenCreated") then p
            else pair_writeMeta (meta j') p in
  keyring_addFromJson j' ;;
  accounts_add (address j') j' ;;
  ret p'.

(** [saveAddressMeta(address, meta)] *)
Definition saveAddressMeta (now : Z) (a : string) (m : Meta) : M unit :=
  let* available := gets (fun st => addresses st) in
  let j := match subject_get a available with
           | Some e => json e
           | None => {| address := a; encoded := None;
                        meta := <["isRecent" := JUndefined]>
                                  (<["whenCreated" := JNumber now]> ∅) |}
           end in
  let j := setJsonMeta (assignAll m (meta j)) j in
  let j := setJsonMeta (delete "isRecent" (meta j)) j in
  addresses_add a j.

(** [saveRecent(address)]; [None] is [undefined]. *)
Definition saveRecent (now : Z) (a : string) : M (option SingleAddress) :=
  let* available := gets (fun st => addresses st) in
  (match subject_get a available with
   | None =>
       addresses_add a {| address := a; encoded := None;
                          meta := <["isRecent" := JBool true]>
                                    (<["whenCreated" := JNumber now]> ∅) |}
   | Some _ => ret tt
   end) ;;
  gets (fun st => subject_get a (addresses st)).

(** [forgetAddress(address)] *)
Definition forgetAddress (a : string) : M unit :=
  addresses_remove a.

(** [setDevMode(isDevelopment)] *)
Definition setDevMode (b : bool) : M unit := modify (set_isDevelopment b).

(** An argument of type [string | Uint8Array]. *)
Inductive AddressArg : Type :=
| AddrString (s : string)
| AddrBytes (u8a : list Byte.byte).

(** [isString(_address) ? _address : encodeAddress(_address)] *)
Definition addressOf (arg : AddressArg) : string :=
  match arg with
  | AddrString s => s
  | AddrBytes u8a => encodeAddress u8a
  end.

(** [isAvailable(_address)] *)
Definition isAvailable (arg : AddressArg) (st : St) : bool :=
  let accountsSubject := accounts st in
  let addressesSubject := addresses st in
  let a := addressOf arg in
  negb (bool_decide (is_Some (subject_get a accountsSubject))) &&
  negb (bool_decide (is_Some (subject_get a addressesSubject))).

(** [getPairs()] *)
Definition getPairs (st : St) : list Pair :=
  filter (fun p =>
            isDevelopment st || negb (isTrue (getProp (pair_getMeta p) "isTesting")))
         (reg_getPairs (keyring st)).

(** The [type] argument of [getAddress]. *)
Inductive AddressType : Type :=
| TypeAccount
| TypeAddress.

(** [KeyringAddress]: the closures returned by [getAddress] capture the
    address, its public key and the subject chosen by [type]; [isValid]
    and [getMeta] read the subject when they are called. *)
Record KeyringAddress : Type := mkKeyringAddress {
  captured_address : string;
  captured_publicKey : list Byte.byte;
  captured_type : AddressType
}.

Definition subjectOf (ty : AddressType) (st : St) : SubjectInfo :=
  match ty with
  | TypeAccount => accounts st
  | TypeAddress => addresses st
  end.

(** [getAddress(_address, type)] *)
Definition getAddress (arg : AddressArg) (ty : AddressType) : Result KeyringAddress :=
  let a := addressOf arg in
  match decodeAddress a with
  | None => inl InvalidAddress
  | Some publicKey =>
      inr {| captured_address := a; captured_publicKey := publicKey; captured_type := ty |}
  end.

(** [isValid: () => !!subject.getValue()[address]] *)
Definition isValid (h : KeyringAddress) (st : St) : bool :=
  bool_decide (is_Some (subject_get (captured_address h) (subjectOf (captured_type h) st))).

(** [getMeta: () => subject.getValue()[address].json.meta]; reading
    [.json] of [undefined] is a TypeError. *)
Definition getMeta (h : KeyringAddress) (st : St) : Result Meta :=
  match subject_get (captured_address h) (subjectOf (captured_type h) st) with
  | Some e => inr (meta (json e))
  | None => inl TypeError
  end.

(** [list.map(f)] and [list.filter(f)] with a callback that may throw *)
Fixpoint mapR {A B} (f : A -> Result B) (l : list A) : Result (list B) :=
  match l with
  | [] => inr []
  | x :: rest =>
      match f x with
      | inl e => inl e
      | inr y => match mapR f rest with
                 | inl e => inl e
                 | inr ys => inr (y :: ys)
                 end
      end
  end.

Fixpoint filterR {A} (f : A -> Result bool) (l : list A) : Result (list A) :=
  match l with
  | [] => inr []
  | x :: rest =>
      match f x with
      | inl e => inl e
      | inr b => match filterR f rest with
                 | inl e => inl e
                 | inr xs => inr (if b then x :: xs else xs)
                 end
      end
  end.

(** [getAccounts()] *)
Definition getAccounts (st : St) : Result (list KeyringAddress) :=
  let available := accounts st in
  match mapR (fun a => getAddress (AddrString a) TypeAccount) (subject_keys available) with
  | inl e => inl e
  | inr handles =>
      filterR (fun h => match getMeta h st with
                        | inl e => inl e
                        | inr m => inr (negb (truthy (getProp m "isTesting")))
                        end)
              handles
  end.

(** [(json as KeyringPair$Json).encoded] as a condition *)
Definition hasEncoded (j : KeyringJson) : bool :=
  match encoded j with
  | Some s => negb (String.eqb s "")
  | None => false
  end.

(** A persisted key that [loadAll] takes for an address record, and the
    public key it reads out of such a record: [None] when [decodeAddress]
    throws. *)
Definition isAddressRecord (k : string) : bool :=
  negb (accountRegex k) && addressRegex k.

Definition normalizedBytes (j : KeyringJson) : option (list Byte.byte) :=
  if isHex (address j) then Some (hexToU8a (address j))
  else decodeAddress (address j).

(** The visitor [loadAll] hands to [store.each]; the record it is handed
    is a [KeyringJson], with its [meta]. *)
Definition loadRecord (j : KeyringJson) (k : string) : M unit :=
  if accountRegex k then
    (if negb (truthy (getProp (meta j) "isTesting")) && hasEncoded j then
       let* p := keyring_addFromJson j in
       accounts_add (pair_address p) j
     else ret tt) ;;
    match hexAddrOf k with
    | None => throw TypeError
    | Some hexAddr =>
        if negb (startsWith0x hexAddr) then
          store_remove k ;;
          let* canonical := accountKeyOf hexAddr in
          store_set canonical j
        else ret tt
    end
  else if addressRegex k then
    let* u8a := (if isHex (address j) then ret (hexToU8a (address j))
                 else orThrow InvalidAddress (decodeAddress (address j))) in
    let* a := encodeAddressOf u8a in
    addresses_add a j ;;
    match hexAddrOf k with
    | None => throw TypeError
    | Some hexAddr =>
        if negb (startsWith0x hexAddr) then
          store_remove k ;;
          let* canonical := addressKeyOf hexAddr in
          store_set canonical j
        else ret tt
    end
  else ret tt.

(** [loadAll()] *)
Definition loadAll : M unit :=
  addPairs ;;
  store_each loadRecord ;;
  initOptions.

(** ** Construction *)

(** The fields of one [Keyring] object. *)
Record KeyringObject : Type := mkObject {
  id : Z;
  state_keyring : Registry
}.

(** The module: its variable [singletonInstance] (a reference into
    [objects], the [Keyring] objects allocated so far), the static
    [Keyring.counter], and the shared objects. *)
Record World : Type := mkWorld {
  singletonInstance : option nat;
  counter : Z;
  objects : list KeyringObject;
  shared : Globals
}.

(** The module before its last statement, [new Keyring()], runs. *)
Definition initialWorld (g : Globals) : World :=
  {| singletonInstance := None; counter := 0; objects := []; shared := g |}.

(** [new Keyring()]: the reference the expression evaluates to and the
    world it leaves.  A constructor that executes a bare [return;] makes
    [new] evaluate to the freshly allocated [this]. *)
Definition construct (w : World) : Result (nat * World) :=
  let this := length (objects w) in
  let fresh := {| id := 0; state_keyring := testKeyring |} in
  match singletonInstance w with
  | Some s =>
      inr (this, {| singletonInstance := Some s; counter := counter w;
                    objects := objects w ++ [fresh]; shared := shared w |})
  | None =>
      match loadAll {| globals := shared w; keyring := testKeyring |} with
      | inl e => inl e
      | inr (_, st) =>
          let n := counter w + 1 in
          if n <=? 1 then
            inr (this, {| singletonInstance := Some this; counter := n;
                          objects := objects w ++ [{| id := n; state_keyring := keyring st |}];
                          shared := globals st |})
          else inl (AssertionError "KeyringInstance should be singleton")
      end
  end.

(** [k] further constructions in a row, collecting the references. *)
Fixpoint constructMany (k : nat) (w : World) : Result (list nat * World) :=
  match k with
  | O => inr ([], w)
  | S k' =>
      match construct w with
      | inl e => inl e
      | inr (r, w') =>
          match constructMany k' w' with
          | inl e => inl e
          | inr (rs, w'') => inr (r :: rs, w'')
          end
      end
  end.

End Facade.

(** ** An executable instance of the collaborators

    A pair that keeps its address, its metadata, the password its
    encrypted material was sealed with and a lock flag; a registry that
    is the list of its pairs.  It is what the facade is run on when a
    statement is evaluated on concrete data. *)
Module Sample.

Record SPair : Type := mkSPair {
  sp_address : string;
  sp_meta : Meta;
  sp_password : string;
  sp_locked : bool
}.

Definition sp_lock (p : SPair) : SPair :=
  {| sp_address := sp_address p; sp_meta := sp_meta p;
     sp_password := sp_password p; sp_locked := true |}.

Definition sp_decodePkcs8 (pw : string) (p : SPair) : option SPair :=
  if String.eqb pw (sp_password p) then
    Some {| sp_address := sp_address p; sp_meta := sp_meta p;
            sp_password := sp_password p; sp_locked := false |}
  else None.

Definition sp_toJson (pw : option string) (p : SPair) : KeyringJson :=
  {| address := sp_address p;
     encoded := Some (String.append "0x" (default ""%string pw));
     meta := sp_meta p |}.

Definition sp_writeMeta (m : Meta) (p : SPair) : SPair :=
  {| sp_address := sp_address p; sp_meta := m;
     sp_password := sp_password p; sp_locked := sp_locked p |}.

Definition sp_fromJson (j : KeyringJson) : SPair :=
  {| sp_address := address j; sp_meta := meta j;
     sp_password := default ""%string (encoded j); sp_locked := true |}.

Fixpoint sreg_put (p : SPair) (r : list SPair) : list SPair :=
  match r with
  | [] => [p]
  | q :: rest =>
      if String.eqb (sp_address q) (sp_address p) then p :: rest
      else q :: sreg_put p rest
  end.

Definition sreg_addFromJson (j : KeyringJson) (r : list SPair) : option (SPair * list SPair) :=
  match encoded j with
  | Some _ => Some (sp_fromJson j, sreg_put (sp_fromJson j) r)
  | None => None
  end.

Definition s_decodeAddress (s : string) : option (list Byte.byte) :=
  if String.eqb s "" then None else Some (list_byte_of_string s).

Definition s_createOptionItem (a : string) (j : KeyringJson) : KeyringSectionOption :=
  {| className := None; name := a; key := a; text := a; value := Some a |}.

#[export] Instance lib : Lib := {|
  Pair := SPair;
  Registry := list SPair;
  decodeAddress := s_decodeAddress;
  encodeAddress := string_of_list_byte;
  encodable := fun _ => true;
  isHex := String.prefix "0x";
  hexToU8a := list_byte_of_string;
  pair_address := sp_address;
  pair_getMeta := sp_meta;
  pair_isLocked := sp_locked;
  pair_lock := sp_lock;
  pair_decodePkcs8 := sp_decodePkcs8;
  pair_toJson := sp_toJson;
  pair_writeMeta := sp_writeMeta;
  testKeyring := [];
  reg_getPairs := fun r => r;
  reg_addFromJson := sreg_addFromJson;
  toHex := String.append "0x";
  createOptionItem := s_createOptionItem
|}.

Definition noGlobals : Globals :=
  {| accounts := []; addresses := []; store := ∅;
     isDevelopment := false; hasCalledInitOptions := false |}.

Definition emptySt : St := {| globals := noGlobals; keyring := [] |}.

Definition plainJson (a : string) (m : Meta) : KeyringJson :=
  {| address := a; encoded := None; meta := m |}.

Definition alice : SPair :=
  {| sp_address := "5Alice"; sp_meta := ∅; sp_password := "secret"; sp_locked := false |}.

Definition bob : SPair :=
  {| sp_address := "5Bob"; sp_meta := {["isTesting" := JBool true]};
     sp_password := "hunter2"; sp_locked := true |}.

(** Persisted records: one legacy account key next to a canonical
    address key. *)
Definition legacyStore : gmap string KeyringJson :=
  <["account:ab" := plainJson "ab" ∅]>
    (<["address:0xcd" := plainJson "0xcd" ∅]> ∅).

End Sample.

(** ** Persisted keys *)

(** A persisted key is prefixed when [loadAll] takes it for an account or
    an address record, canonical when its address segment starts with
    [0x], and legacy when it is prefixed without being canonical. *)
Definition isPrefixed (k : string) : bool := accountRegex k || addressRegex k.

Definition isCanonical (k : string) : bool :=
  match hexAddrOf k with
  | Some h => startsWith0x h
  | None => false
  end.

Definition isLegacy (k : string) : bool := isPrefixed k && negb (isCanonical k).

(** The key a legacy key is rewritten under. *)
Definition canonicalKey `{Lib} (k : string) : string :=
  let hexAddr := default ""%string (hexAddrOf k) in
  if accountRegex k then accountKey hexAddr else addressKey hexAddr.

(** What one visit of [loadAll] does to the persisted records: the
    store's upsert persists the record under [upsert] when the visit
    loads it, and a legacy key is then rewritten. *)
Definition migrateOne `{Lib} (upsert : option string) (m : gmap string KeyringJson)
    (kj : string * KeyringJson) : gmap string KeyringJson :=
  let m := match upsert with
           | Some c => <[c := kj.2]> m
           | None => m
           end in
  if isLegacy kj.1 then <[canonicalKey kj.1 := kj.2]> (delete kj.1 m) else m.

(** The keys under which a visit of [loadAll] to the record [j] stored
    under [k] persists [j] through a store's upsert: the account key of
    the pair the registry makes of a loaded account, the address key of
    the encoded address of a loaded address. *)
Definition upsertsUnder `{Lib} (k : string) (j : KeyringJson) (c : string) : Prop :=
  (accountRegex k = true /\
   negb (truthy (getProp (meta j) "isTesting")) && hasEncoded j = true /\
   exists r p r', reg_addFromJson j r = Some (p, r') /\ c = accountKey (pair_address p)) \/
  (isAddressRecord k = true /\
   exists u8a, normalizedBytes j = Some u8a /\ c = addressKey (encodeAddress u8a)).

(** All the keys under which that visit writes [j]: those, and the
    canonical key of [k] when [k] is legacy. *)
Definition writesUnder `{Lib} (k : string) (j : KeyringJson) (c : string) : Prop :=
  (isLegacy k = true /\ c = canonicalKey k) \/ upsertsUnder k j c.

(** A section of an option list under a given header: nothing when there
    are no options. *)
Definition underHeader (h : KeyringSectionOption) (xs : KeyringSectionOptions) :
    KeyringSectionOptions :=
  match xs with
  | [] => []
  | _ :: _ => h :: xs
  end.

(** A section of an option list: nothing when there are no options, the
    header and then the options otherwise. *)
Definition headed (title : string) (xs : KeyringSectionOptions) : KeyringSectionOptions :=
  match xs with
  | [] => []
  | _ :: _ => createOptionHeader title :: xs
  end.

(** ** Further collaborators *)

(** The rest of what the facade calls on a pair and on the registry.  A
    registry call that throws carries the error it throws. *)
Class LibMore (L : Lib) : Type := {
  pair_setMeta : Meta -> Pair -> Pair;
  (** [createPair({ publicKey, secretKey: new Uint8Array() }, meta, encoded)] *)
  createPair : list Byte.byte -> Meta -> list Byte.byte -> Pair;
  reg_addFromSeed : list Byte.byte -> Meta -> Registry -> Result (Pair * Registry);
  reg_addFromMnemonic : string -> Meta -> Registry -> Result (Pair * Registry);
  reg_addPair : Pair -> Registry -> Registry;
  reg_removePair : string -> Registry -> Registry
}.

(** Modelled from the spec: ./defaults is not among the sources; the
    longest password accepted has 32 characters. *)
Definition MAX_PASS_LEN : nat := 32.

Section FacadeMore.
Context `{L : Lib} {X : LibMore L}.

Local Notation "'let*' x ':=' m 'in' k" := (bind m (fun x => k))
  (at level 10, x pattern, m at level 100, k at level 200).
Local Notation "m ;; k" := (bind m (fun _ => k))
  (at level 100, k at level 200, right associativity).

(** [isPassValid(password)] *)
Definition isPassValid (pw : string) : bool :=
  Nat.ltb 0 (String.length pw) && Nat.leb (String.length pw) MAX_PASS_LEN.

(** [getAddresses()] *)
Definition getAddresses (st : St) : Result (list KeyringAddress) :=
  let available := addresses st in
  mapR (fun a => getAddress (AddrString a) TypeAddress) (subject_keys available).

(** Whether the filter of [getAccounts] keeps the account stored under an
    address. *)
Definition keptAccount (st : St) (a : string) : bool :=
  match subject_get a (accounts st) with
  | Some e => negb (truthy (getProp (meta (json e)) "isTesting"))
  | None => false
  end.

(** [forgetAccount(address)] *)
Definition forgetAccount (a : string) : M unit :=
  modify (fun st => set_keyring (reg_removePair a (keyring st)) st) ;;
  accounts_remove a.

(** [encryptAccount(pair, password)]; as in [saveAccount], the timestamp
    written through [json.meta] is written into the pair, and the result
    is the pair as the call leaves it. *)
Definition encryptAccount (now : Z) (p : Pair) (password : string) : M Pair :=
  let j := pair_toJson (Some password) p in
  let j' := setJsonMeta (<["whenEdited" := JNumber now]> (meta j)) j in
  let p' := pair_writeMeta (meta j') p in
  keyring_addFromJson j' ;;
  accounts_add (address j') j' ;;
  ret p'.

(** [createAccount(seed, password?, meta = {})] *)
Definition createAccount (now : Z) (seed : list Byte.byte) (password : option string)
    (m : option Meta) : M Pair :=
  let* r := gets (fun st => reg_addFromSeed seed (default ∅ m) (keyring st)) in
  match r with
  | inl e => throw e
  | inr (p, reg) =>
      modify (set_keyring reg) ;;
      saveAccount now p password
  end.

(** [createAccountMnemonic(seed, password?, meta = {})] *)
Definition createAccountMnemonic (now : Z) (seed : string) (password : option string)
    (m : option Meta) : M Pair :=
  let* r := gets (fun st => reg_addFromMnemonic seed (default ∅ m) (keyring st)) in
  match r with
  | inl e => throw e
  | inr (p, reg) =>
      modify (set_keyring reg) ;;
      saveAccount now p password
  end.

(** [restoreAccount(json, password)], with [a], [enc] and [m] the
    [address], [encoded] and [meta] of the [KeyringPair$Json] argument.
    The result is the pair it returns. *)
Definition restoreAccount (now : Z) (a enc : string) (m : Meta) (password : string) : M Pair :=
  let j := {| address := a; encoded := Some enc; meta := m |} in
  let* publicKey := orThrow InvalidAddress (decodeAddress a) in
  let p := createPair publicKey m (hexToU8a enc) in
  let* p := orThrow WrongPassword (pair_decodePkcs8 password p) in
  modify (fun st => set_keyring (reg_addPair p (keyring st)) st) ;;
  addPair now j ;;
  ret (pair_lock p).

(** [saveAccountMeta(pair, meta)]: the record is the one persisted under
    the key of the pair's address, whose key the call builds;
    [store.get] of a missing key is [undefined], and assigning [json.meta]
    on it is a TypeError.  The result is the pair object after [setMeta];
    what the registry shows of that object is not followed here. *)
Definition saveAccountMeta (p : Pair) (m : Meta) : M Pair :=
  let a := pair_address p in
  let* canonical := accountKeyOf a in
  let* stored := gets (fun st => store st !! canonical) in
  let p' := pair_setMeta m p in
  match stored with
  | None => throw TypeError
  | Some j =>
      let j' := setJsonMeta (pair_getMeta p') j in
      accounts_add (address j') j' ;;
      ret p'
  end.

(** The visitor of the earlier [loadAll] (the class of
    src/unnamed/part_001), which migrates by [json.address] instead of by
    key.  The record it is handed is a [KeyringJson], with its [meta]. *)
Definition legacyLoadRecord (now : Z) (j : KeyringJson) (k : string) : M unit :=
  if accountRegex k then
    if negb (truthy (getProp (meta j) "isTesting")) then
      keyring_addFromJson j ;;
      accounts_add (address j) j
    else ret tt
  else if addressRegex k then
    let* a := (if isHex (address j) then encodeAddressOf (hexToU8a (address j))
               else ret (address j)) in
    let* j := (if decide (a <> address j) then
                 let j := {| address := a; encoded := encoded j; meta := meta j |} in
                 store_remove k ;;
                 saveAddressMeta now a (meta j) ;;
                 ret j
               else ret j) in
    addresses_add (address j) j
  else ret tt.

End FacadeMore.

(** ** The Backup modal (src/unnamed/part_000) *)

Module Backup.
Section Component.
Context `{L : Lib}.

(** [validatePass(password)] *)
Definition validatePass (pw : string) : bool :=
  Nat.ltb 0 (String.length pw) && Nat.leb (String.length pw) 32.

(** The component's [State]. *)
Record State : Type := mkState {
  isPassValid : bool;
  password : string
}.

(** The state the constructor sets. *)
Definition initialState : State := {| isPassValid := false; password := "" |}.

(** [onChangePass(password)] *)
Definition onChangePass (pw : string) (s : State) : State :=
  {| isPassValid := validatePass pw; password := pw |}.

(** [isDisabled={!isPassValid}] on the Download button *)
Definition downloadDisabled (s : State) : bool := negb (isPassValid s).

(** What one [doBackup] does outside the component's state: the file handed
    to [FileSaver.saveAs], by name and content, and whether [onClose] was
    called. *)
Record Effects : Type := mkEffects {
  saved : option (string * KeyringJson);
  closed : bool
}.

(** [doBackup()], with [pair] the [pair] prop ([None] when it is not set) *)
Definition doBackup (pair : option Pair) (s : State) : State * Effects :=
  match pair with
  | None => (s, {| saved := None; closed := false |})
  | Some p =>
      match backupAccount p (password s) with
      | inr (j, p') =>
          (s, {| saved := Some (String.append (pair_address p') ".json", j);
                 closed := true |})
      | inl _ =>
          ({| isPassValid := false; password := password s |},
           {| saved := None; closed := false |})
      end
  end.

(** What the user does to the modal: edit the password field, or press
    Download. *)
Inductive Event : Type :=
| ChangePass (pw : string)
| Download (pair : option Pair).

Definition step (s : State) (ev : Event) : State :=
  match ev with
  | ChangePass pw => onChangePass pw s
  | Download p => (doBackup p s).1
  end.

(** The state after a sequence of events on a freshly mounted modal. *)
Definition run (evs : list Event) : State := foldl step initialState evs.

End Component.
End Backup.

(** ** The sample collaborators, continued *)

Module SampleMore.
Import Sample.

(** Undo the [0x] the sample [toJson] puts in front of the password. *)
Definition strip0x (s : string) : string :=
  if String.prefix "0x" s then substring 2 (String.length s - 2) s else s.

Definition s_createPair (publicKey : list Byte.byte) (m : Meta) (enc : list Byte.byte) : SPair :=
  {| sp_address := string_of_list_byte publicKey; sp_meta := m;
     sp_password := strip0x (string_of_list_byte enc); sp_locked := true |}.

Definition s_fromSeed (seed : list Byte.byte) (m : Meta) : SPair :=
  {| sp_address := string_of_list_byte seed; sp_meta := m;
     sp_password := ""; sp_locked := false |}.

Definition sreg_addFromSeed (seed : list Byte.byte) (m : Meta) (r : list SPair) :
    Result (SPair * list SPair) :=
  match seed with
  | [] => inl (AssertionError "Expected a valid seed")
  | _ :: _ => inr (s_fromSeed seed m, sreg_put (s_fromSeed seed m) r)
  end.

Definition s_setMeta (m : Meta) (p : SPair) : SPair := sp_writeMeta (m ∪ sp_meta p) p.

Definition sreg_addFromMnemonic (phrase : string) (m : Meta) (r : list SPair) :
    Result (SPair * list SPair) :=
  sreg_addFromSeed (list_byte_of_string phrase) m r.

Definition sreg_removePair (a : string) (r : list SPair) : list SPair :=
  filter (fun p => sp_address p <> a) r.

#[export] Instance libMore : LibMore lib := {|
  pair_setMeta := s_setMeta;
  createPair := s_createPair;
  reg_addFromSeed := sreg_addFromSeed;
  reg_addFromMnemonic := sreg_addFromMnemonic;
  reg_addPair := sreg_put;
  reg_removePair := sreg_removePair
|}.

End SampleMore.

(** ** Collaborators with a strict address codec

    The sample above takes any non-empty string for an address.  Here
    hex strings are parsed, the codec knows the addresses of two public
    keys and refuses every other string, [encodeAddress] accepts keys of
    1, 2, 4, 8 or 32 bytes, and the registry refuses an export whose
    encoded material is not hex or whose address does not decode: keys
    and records are then the ones a store really holds. *)
Module Chain.

Definition hexDigits : list ascii := list_ascii_of_string "0123456789abcdef".

Definition hexDigit (n : nat) : ascii := nth n hexDigits "0"%char.

Fixpoint indexOf (c : ascii) (l : list ascii) : option nat :=
  match l with
  | [] => None
  | d :: rest => if Ascii.eqb c d then Some 0%nat else S <$> indexOf c rest
  end.

Definition hexValue (c : ascii) : option nat := indexOf (lowerAscii c) hexDigits.

Definition byteOfNat (n : nat) : Byte.byte := default Byte.x00 (Byte.of_N (N.of_nat n)).

(** The bytes written as pairs of hex digits. *)
Fixpoint hexBytes (s : string) : option (list Byte.byte) :=
  match s with
  | EmptyString => Some []
  | String _ EmptyString => None
  | String c1 (String c2 rest) =>
      match hexValue c1, hexValue c2, hexBytes rest with
      | Some a, Some b, Some l => Some (byteOfNat (16 * a + b) :: l)
      | _, _, _ => None
      end
  end.

Definition byteHex (b : Byte.byte) : string :=
  let n := N.to_nat (Byte.to_N b) in
  String (hexDigit (n / 16)) (String (hexDigit (n mod 16)) EmptyString).

Definition u8aToHex (l : list Byte.byte) : string :=
  String.append "0x" (String.concat "" (byteHex <$> l)).

Definition c_isHex (s : string) : bool :=
  String.prefix "0x" s && bool_decide (is_Some (hexBytes (SampleMore.strip0x s))).

Definition c_hexToU8a (s : string) : list Byte.byte :=
  default [] (hexBytes (SampleMore.strip0x s)).

(** Two addresses and the public keys they encode. *)
Definition aliceAddress : string := "5GrwvaEF5zXb26Fz9rcQpDWS57CtERHpNehXCPcNoHGKutQY".
Definition alicePublicKey : string :=
  "0xd43593c715fdd31c61141abd04a99fd6822c8558854ccde39a5684e7a56da27d".
Definition bobAddress : string := "5FHneW46xGXgs5mUiveU4sbTyGBzmstUspZC92UhjJM694ty".
Definition bobPublicKey : string :=
  "0x8eaf04151687736326c9fea17e25fc5287613693c912909cb226aa4794f26a48".

Definition knownAddresses : list (string * string) :=
  [(aliceAddress, alicePublicKey); (bobAddress, bobPublicKey)].

(** [decodeAddress] hands back the bytes of a hex string and decodes the
    addresses it knows. *)
Definition c_decodeAddress (s : string) : option (list Byte.byte) :=
  if c_isHex s then Some (c_hexToU8a s)
  else (fun ah : string * string => c_hexToU8a ah.2) <$>
         List.find (fun ah : string * string => String.eqb ah.1 s) knownAddresses.

Definition c_encodeAddress (u8a : list Byte.byte) : string :=
  match List.find (fun ah : string * string => String.eqb ah.2 (u8aToHex u8a))
          knownAddresses with
  | Some ah => ah.1
  | None => u8aToHex u8a
  end.

Definition c_encodable (u8a : list Byte.byte) : bool :=
  existsb (Nat.eqb (length u8a)) [1; 2; 4; 8; 32]%nat.

Definition c_toHex (a : string) : string :=
  match c_decodeAddress a with
  | Some u8a => u8aToHex u8a
  | None => "0x"
  end.

(** The export of a pair carries the password it is sealed with, in hex. *)
Definition c_toJson (pw : option string) (p : Sample.SPair) : KeyringJson :=
  {| address := Sample.sp_address p;
     encoded := Some (u8aToHex (list_byte_of_string (default ""%string pw)));
     meta := Sample.sp_meta p |}.

Definition c_fromJson (j : KeyringJson) : Sample.SPair :=
  {| Sample.sp_address := address j; Sample.sp_meta := meta j;
     Sample.sp_password := string_of_list_byte (c_hexToU8a (default ""%string (encoded j)));
     Sample.sp_locked := true |}.

Definition c_addFromJson (j : KeyringJson) (r : list Sample.SPair) :
    option (Sample.SPair * list Sample.SPair) :=
  match encoded j with
  | Some enc =>
      if c_isHex enc && bool_decide (is_Some (c_decodeAddress (address j))) then
        Some (c_fromJson j, Sample.sreg_put (c_fromJson j) r)
      else None
  | None => None
  end.

#[export] Instance strictLib : Lib := {|
  Pair := Sample.SPair;
  Registry := list Sample.SPair;
  decodeAddress := c_decodeAddress;
  encodeAddress := c_encodeAddress;
  encodable := c_encodable;
  isHex := c_isHex;
  hexToU8a := c_hexToU8a;
  pair_address := Sample.sp_address;
  pair_getMeta := Sample.sp_meta;
  pair_isLocked := Sample.sp_locked;
  pair_lock := Sample.sp_lock;
  pair_decodePkcs8 := Sample.sp_decodePkcs8;
  pair_toJson := c_toJson;
  pair_writeMeta := Sample.sp_writeMeta;
  testKeyring := [];
  reg_getPairs := fun r => r;
  reg_addFromJson := c_addFromJson;
  toHex := c_toHex;
  createOptionItem := Sample.s_createOptionItem
|}.

Definition c_createPair (publicKey : list Byte.byte) (m : Meta) (enc : list Byte.byte) :
    Sample.SPair :=
  {| Sample.sp_address := c_encodeAddress publicKey; Sample.sp_meta := m;
     Sample.sp_password := string_of_list_byte enc; Sample.sp_locked := true |}.

(** A pair made of a seed: the seed stands for the public key derived
    from it. *)
Definition c_addFromSeed (seed : list Byte.byte) (m : Meta) (r : list Sample.SPair) :
    Result (Sample.SPair * list Sample.SPair) :=
  if Nat.eqb (length seed) 32 then
    let p := {| Sample.sp_address := c_encodeAddress seed; Sample.sp_meta := m;
                Sample.sp_password := ""; Sample.sp_locked := false |} in
    inr (p, Sample.sreg_put p r)
  else inl (AssertionError "Expected a valid seed").

#[export] Instance strictLibMore : LibMore strictLib := {|
  pair_setMeta := SampleMore.s_setMeta;
  createPair := c_createPair;
  reg_addFromSeed := c_addFromSeed;
  reg_addFromMnemonic := fun phrase => c_addFromSeed (list_byte_of_string phrase);
  reg_addPair := Sample.sreg_put;
  reg_removePair := SampleMore.sreg_removePair
|}.

Definition freshSt : St :=
  {| globals := {| accounts := []; addresses := []; store := ∅;
                   isDevelopment := false; hasCalledInitOptions := false |};
     keyring := [] |}.

(** Alice's pair, unlocked, sealed with "secret". *)
Definition alicePair : Sample.SPair :=
  {| Sample.sp_address := aliceAddress; Sample.sp_meta := {["name" := JString "alice"]};
     Sample.sp_password := "secret"; Sample.sp_locked := false |}.

(** Persisted records.  [addressKeyedStore]: an account and a contact,
    each under a key made of the address itself.  [collidingStore]: two
    keys with the same address segment.  [brokenContact],
    [brokenAccount]: a contact whose address does not decode, an account
    whose encoded material is not hex.  [hexContact]: a recent address
    saved under its public key. *)
Definition aliceExport : KeyringJson :=
  {| address := aliceAddress; encoded := Some "0x736563726574"%string; meta := ∅ |}.

Definition aliceAccount : KeyringJson :=
  {| address := aliceAddress; encoded := None; meta := {["name" := JString "alice"]} |}.

Definition bobContact : KeyringJson :=
  {| address := bobAddress; encoded := None; meta := {["name" := JString "Bob"]} |}.

Definition addressKeyedStore : gmap string KeyringJson :=
  <[String.append "account:" aliceAddress := aliceAccount]>
    (<[String.append "address:" bobAddress := bobContact]> ∅).




Definition brokenContact : gmap string KeyringJson :=
  <[String.append "address:" bobPublicKey :=
      {| address := "not an address"; encoded := None; meta := ∅ |}]> ∅.

Definition brokenAccount : gmap string KeyringJson :=
  <[String.append "account:" alicePublicKey :=
      {| address := aliceAddress; encoded := Some "sealed"%string; meta := ∅ |}]> ∅.

Definition hexContact : KeyringJson :=
  {| address := alicePublicKey; encoded := None; meta := {["isRecent" := JBool true]} |}.

End Chain.

(** * Properties *)

(** ** The observable stores and metadata objects *)

Section StoreFacts.
Context `{L : Lib}.

Lemma subject_get_put_eq (a : string) (e : SingleAddress) (s : SubjectInfo) :
  subject_get a (subject_put a e s) = Some e.
Proof.
  induction s as [|[b e'] s IH]; simpl.
  - by rewrite decide_True.
  - destruct (decide (b = a)) as [->|Hne]; simpl.
    + by rewrite decide_True.
    + by rewrite decide_False.
Qed.

Lemma subject_get_put_ne (a b : string) (e : SingleAddress) (s : SubjectInfo) :
  a <> b -> subject_get b (subject_put a e s) = subject_get b s.
Proof.
  intros Hab. induction s as [|[c e'] s IH]; simpl.
  - by rewrite decide_False.
  - destruct (decide (c = a)) as [->|Hne]; simpl.
    + by rewrite !decide_False.
    + destruct (decide (c = b)); auto.
Qed.

Lemma subject_get_add_eq (a : string) (j : KeyringJson) (s : SubjectInfo) :
  subject_get a (subject_add a j s) =
  Some {| json := j; option_ := createOptionItem a j |}.
Proof. apply subject_get_put_eq. Qed.

(** The copy loop overwrites the supplied properties and keeps the rest. *)
Lemma assignAll_lookup (m target : Meta) (k : string) :
  assignAll m target !! k =
  match m !! k with
  | Some v => Some v
  | None => target !! k
  end.
Proof.
  unfold assignAll.
  apply (map_fold_weak_ind
           (fun r m' => r !! k = match m' !! k with Some v => Some v | None => target !! k end)).
  - by rewrite lookup_empty.
  - intros i x m' r Hi IH.
    destruct (decide (i = k)) as [->|Hne].
    + by rewrite !lookup_insert_eq.
    + by rewrite !lookup_insert_ne.
Qed.

End StoreFacts.

(** ** Recent addresses and address metadata *)

Section AddressStore.
Context `{L : Lib}.

(** Both address-side saves return and leave an entry under the address. *)
Lemma saveAddressMeta_stores (now : Z) (a : string) (m : Meta) (st : St) :
  exists e st',
    saveAddressMeta now a m st = inr (tt, st') /\
    subject_get a (addresses st') = Some e.
Proof.
  unfold saveAddressMeta, bind, gets, addresses_add, store_set, modify. simpl.
  eexists _, _. split; [reflexivity|]. simpl. apply subject_get_add_eq.
Qed.

Lemma saveRecent_stores (now : Z) (a : string) (st : St) :
  exists e st',
    saveRecent now a st = inr (Some e, st') /\
    subject_get a (addresses st') = Some e.
Proof.
  unfold saveRecent, bind, gets, addresses_add, store_set, modify, ret.
  destruct (subject_get a (addresses st)) as [e0|] eqn:Hget; simpl.
  - exists e0, st. by rewrite Hget.
  - eexists _, _. split; [rewrite subject_get_add_eq; reflexivity|].
    simpl. apply subject_get_add_eq.
Qed.

(** C3.  [saveRecent(address)] returns the entry the Address Store holds
    for [address].  When the store already holds one, the state is left
    as it was and that entry is returned; when it holds none, the entry
    returned is new, with [isRecent = true] and [whenCreated = now], and
    no other entry of either store changes.  A second call, at any later
    time, returns the same entry and leaves the state as the first call
    left it. *)
Theorem saveRecent_never_overwrites (now now' : Z) (a : string) (st : St) :
  exists e st1,
    saveRecent now a st = inr (Some e, st1) /\
    subject_get a (addresses st1) = Some e /\
    match subject_get a (addresses st) with
    | Some e0 => st1 = st /\ e = e0
    | None =>
        address (json e) = a /\
        meta (json e) = <["isRecent" := JBool true]> (<["whenCreated" := JNumber now]> ∅) /\
        getProp (meta (json e)) "isRecent" = JBool true /\
        getProp (meta (json e)) "whenCreated" = JNumber now /\
        accounts st1 = accounts st /\
        (forall b, b <> a -> subject_get b (addresses st1) = subject_get b (addresses st))
    end /\
    saveRecent now' a st1 = inr (Some e, st1).
Proof.
  unfold saveRecent, bind, gets, addresses_add, store_set, modify, ret.
  destruct (subject_get a (addresses st)) as [e0|] eqn:Hget; simpl.
  - exists e0, st. rewrite !Hget. simpl. rewrite ?Hget. auto.
  - eexists _, _. split; [rewrite subject_get_add_eq; reflexivity|]. simpl.
    rewrite !subject_get_add_eq. simpl. rewrite ?subject_get_add_eq.
    repeat split; try reflexivity.
    intros b Hb. unfold subject_add. by rewrite subject_get_put_ne.
Qed.

(** C4.  [saveAddressMeta(address, meta)] stores an entry whose metadata
    is the supplied metadata laid over the metadata of the existing entry
    (over [whenCreated = now] when there is none): a supplied field has
    the supplied value, a field that was not supplied keeps the value it
    had, and [isRecent] is absent whatever the existing entry or the
    supplied metadata said. *)
Theorem saveAddressMeta_merges_and_strips (now : Z) (a : string) (m : Meta) (st : St) :
  let base := match subject_get a (addresses st) with
              | Some e0 => meta (json e0)
              | None => {["whenCreated" := JNumber now]}
              end in
  exists e st',
    saveAddressMeta now a m st = inr (tt, st') /\
    subject_get a (addresses st') = Some e /\
    meta (json e) !! "isRecent" = None /\
    (forall k v, k <> "isRecent"%string -> m !! k = Some v -> meta (json e) !! k = Some v) /\
    (forall k, k <> "isRecent"%string -> m !! k = None -> meta (json e) !! k = base !! k) /\
    (subject_get a (addresses st) = None -> m !! "whenCreated" = None ->
     getProp (meta (json e)) "whenCreated" = JNumber now).
Proof.
  intros base. unfold saveAddressMeta, bind, gets, addresses_add, store_set, modify. simpl.
  eexists _, _. split; [reflexivity|]. simpl.
  rewrite subject_get_add_eq. split; [reflexivity|]. simpl.
  split; [apply lookup_delete_eq|].
  assert (Hbase : forall k, k <> "isRecent"%string ->
            meta (match subject_get a (addresses st) with
                  | Some e0 => json e0
                  | None => {| address := a; encoded := None;
                               meta := <["isRecent" := JUndefined]>
                                         (<["whenCreated" := JNumber now]> ∅) |}
                  end) !! k = base !! k).
  { intros k Hk. subst base. destruct (subject_get a (addresses st)); [done|].
    simpl. by rewrite lookup_insert_ne. }
  split; [|split].
  - intros k v Hk Hm. rewrite lookup_delete_ne by done.
    by rewrite assignAll_lookup, Hm.
  - intros k Hk Hm. rewrite lookup_delete_ne by done.
    rewrite assignAll_lookup, Hm. by apply Hbase.
  - intros Hnone Hm. unfold getProp. rewrite lookup_delete_ne by done.
    rewrite assignAll_lookup, Hm, Hbase by done.
    subst base. rewrite Hnone. by rewrite lookup_singleton_eq.
Qed.

End AddressStore.

(** ** Accounts *)

Section Accounts.
Context `{L : Lib}.

Lemma stampWhenCreated_address (now : Z) (j : KeyringJson) :
  address (stampWhenCreated now j) = address j.
Proof. unfold stampWhenCreated. by destruct (truthy _). Qed.

Lemma stampWhenCreated_truthy (now : Z) (j : KeyringJson) :
  now <> 0 -> truthy (getProp (meta (stampWhenCreated now j)) "whenCreated") = true.
Proof.
  intros Hnow. unfold stampWhenCreated.
  destruct (truthy (getProp (meta j) "whenCreated")) eqn:Ht; [done|].
  simpl. unfold getProp. rewrite lookup_insert_eq. simpl.
  apply negb_true_iff, Z.eqb_neq, Hnow.
Qed.

Lemma stampWhenCreated_id (now : Z) (j : KeyringJson) :
  truthy (getProp (meta j) "whenCreated") = true -> stampWhenCreated now j = j.
Proof. intros Ht. unfold stampWhenCreated. by rewrite Ht. Qed.

(** What a [saveAccount] that returns has done. *)
Lemma saveAccount_inv (now : Z) (p : Pair) (pw : option string) (st : St) (p' : Pair) (st' : St) :
  saveAccount now p pw st = inr (p', st') ->
  let j := stampWhenCreated now (pair_toJson pw p) in
  exists q r,
    reg_addFromJson j (keyring st) = Some (q, r) /\
    st' = set_store (<[accountKey (address j) := j]> (store st))
            (set_accounts (subject_add (address j) j (accounts st)) (set_keyring r st)) /\
    p' = (if truthy (getProp (meta (pair_toJson pw p)) "whenCreated") then p
          else pair_writeMeta (meta j) p).
Proof.
  unfold saveAccount, keyring_addFromJson, bind, gets, orThrow, accounts_add, store_set,
    modify, ret, throw.
  simpl. intros H.
  destruct (reg_addFromJson _ (keyring st)) as [[q r]|] eqn:Hreg; simpl in H; [|done].
  inversion H; subst. by exists q, r.
Qed.

(** C9.  [saveAccount] leaves an Account Store entry for the pair whose
    [whenCreated] is set: the pair's own value when it had one, the time
    of the call otherwise.  Saving the same pair again, at any later time
    and with any password, leaves an entry with the same [whenCreated].
    (The clock does not read 0; the second call is handed the pair object
    as the first call left it.) *)
Theorem saveAccount_keeps_whenCreated {laws : PairLaws L}
    (now1 now2 : Z) (p : Pair) (pw1 pw2 : option string) (st : St)
    (p1 : Pair) (st1 : St) (p2 : Pair) (st2 : St) :
  now1 <> 0 ->
  saveAccount now1 p pw1 st = inr (p1, st1) ->
  saveAccount now2 p1 pw2 st1 = inr (p2, st2) ->
  exists e1 e2,
    subject_get (pair_address p) (accounts st1) = Some e1 /\
    subject_get (pair_address p) (accounts st2) = Some e2 /\
    truthy (getProp (meta (json e1)) "whenCreated") = true /\
    getProp (meta (json e1)) "whenCreated" =
      (if truthy (getProp (pair_getMeta p) "whenCreated")
       then getProp (pair_getMeta p) "whenCreated" else JNumber now1) /\
    getProp (meta (json e2)) "whenCreated" = getProp (meta (json e1)) "whenCreated".
Proof.
  intros Hnow H1 H2.
  apply saveAccount_inv in H1 as (q1 & r1 & _ & -> & ->).
  apply saveAccount_inv in H2 as (q2 & r2 & _ & -> & _).
  rewrite !stampWhenCreated_address, !toJson_address.
  set (j1 := stampWhenCreated now1 (pair_toJson pw1 p)).
  assert (Hp1 : pair_address
                  (if truthy (getProp (meta (pair_toJson pw1 p)) "whenCreated") then p
                   else pair_writeMeta (meta j1) p) = pair_address p).
  { destruct (truthy _); [done|apply address_writeMeta]. }
  assert (Hm1 : pair_getMeta
                  (if truthy (getProp (meta (pair_toJson pw1 p)) "whenCreated") then p
                   else pair_writeMeta (meta j1) p) = meta j1).
  { destruct (truthy _) eqn:Ht.
    - subst j1. rewrite stampWhenCreated_id by done. by rewrite toJson_meta.
    - apply getMeta_writeMeta. }
  rewrite Hp1. simpl.
  rewrite !subject_get_add_eq.
  eexists _, _. split; [reflexivity|]. split; [reflexivity|]. simpl.
  split; [by apply stampWhenCreated_truthy|].
  split.
  - subst j1. unfold stampWhenCreated. rewrite toJson_meta.
    destruct (truthy (getProp (pair_getMeta p) "whenCreated")) eqn:Ht.
    + by rewrite toJson_meta.
    + simpl. unfold getProp. by rewrite lookup_insert_eq.
  - rewrite stampWhenCreated_id.
    + by rewrite toJson_meta, Hm1.
    + rewrite toJson_meta, Hm1. by apply stampWhenCreated_truthy.
Qed.

(** C8.  [backupAccount(pair, password)] hands [decodePkcs8] a locked
    pair: the pair itself when it was locked, the pair after [lock()]
    otherwise.  When that decode fails the call fails with WrongPassword
    and exports nothing; when it succeeds the call returns the export of
    the decoded pair, and the pair is left unlocked. *)
Theorem backupAccount_locks_then_decodes {laws : LockLaws L} (p : Pair) (password : string) :
  let locked := if pair_isLocked p then p else pair_lock p in
  pair_isLocked locked = true /\
  match pair_decodePkcs8 password locked with
  | None => backupAccount p password = inl WrongPassword
  | Some p' =>
      backupAccount p password = inr (pair_toJson (Some password) p', p') /\
      pair_isLocked p' = false
  end.
Proof.
  intros locked. subst locked. unfold backupAccount.
  destruct (pair_isLocked p) eqn:Hl; simpl.
  - split; [done|].
    destruct (pair_decodePkcs8 password p) as [p'|] eqn:Hd; [|done].
    split; [done|]. by eapply isLocked_decodePkcs8.
  - split; [apply isLocked_lock|].
    destruct (pair_decodePkcs8 password (pair_lock p)) as [p'|] eqn:Hd; [|done].
    split; [done|]. by eapply isLocked_decodePkcs8.
Qed.

End Accounts.

(** ** Availability, handles and filtering *)

Section Lookup.
Context `{L : Lib}.

Lemma isAvailable_true_iff (arg : AddressArg) (st : St) :
  isAvailable arg st = true <->
  subject_get (addressOf arg) (accounts st) = None /\
  subject_get (addressOf arg) (addresses st) = None.
Proof.
  unfold isAvailable.
  rewrite andb_true_iff, !negb_true_iff, !bool_decide_eq_false.
  by rewrite <- !eq_None_not_Some.
Qed.

Lemma isAvailable_false_account (arg : AddressArg) (st : St) (e : SingleAddress) :
  subject_get (addressOf arg) (accounts st) = Some e -> isAvailable arg st = false.
Proof.
  intros He. apply not_true_is_false. rewrite isAvailable_true_iff.
  intros [Hn _]. congruence.
Qed.

Lemma isAvailable_false_address (arg : AddressArg) (st : St) (e : SingleAddress) :
  subject_get (addressOf arg) (addresses st) = Some e -> isAvailable arg st = false.
Proof.
  intros He. apply not_true_is_false. rewrite isAvailable_true_iff.
  intros [_ Hn]. congruence.
Qed.

(** C7.  [isAvailable(address)] is true exactly when neither the Account
    Store nor the Address Store holds the address: it is true on empty
    stores, and false in the state left by a [saveAccount] of a pair with
    that address, by a [saveAddressMeta] or by a [saveRecent] of that
    address. *)
Theorem isAvailable_iff_in_neither_store {laws : PairLaws L} (arg : AddressArg) (st : St) :
  let a := addressOf arg in
  (isAvailable arg st = true <->
   subject_get a (accounts st) = None /\ subject_get a (addresses st) = None) /\
  (accounts st = [] -> addresses st = [] -> isAvailable arg st = true) /\
  (forall now p pw p' st',
     pair_address p = a -> saveAccount now p pw st = inr (p', st') ->
     isAvailable arg st' = false) /\
  (forall now m u st',
     saveAddressMeta now a m st = inr (u, st') -> isAvailable arg st' = false) /\
  (forall now r st',
     saveRecent now a st = inr (r, st') -> isAvailable arg st' = false).
Proof.
  intros a. split; [apply isAvailable_true_iff|].
  split; [|split; [|split]].
  - intros Hacc Haddr. apply isAvailable_true_iff. by rewrite Hacc, Haddr.
  - intros now p pw p' st' Hp Hsave.
    apply saveAccount_inv in Hsave as (q & r & _ & -> & _).
    eapply isAvailable_false_account. simpl.
    rewrite stampWhenCreated_address, toJson_address, Hp.
    apply subject_get_add_eq.
  - intros now m u st' Hsave.
    destruct (saveAddressMeta_stores now a m st) as (e & st0 & Heq & Hget).
    rewrite Heq in Hsave. inversion Hsave; subst.
    by eapply isAvailable_false_address.
  - intros now r st' Hsave.
    destruct (saveRecent_stores now a st) as (e & st0 & Heq & Hget).
    rewrite Heq in Hsave. inversion Hsave; subst.
    by eapply isAvailable_false_address.
Qed.


Lemma filterR_elem {A} (f : A -> Result bool) (l xs : list A) :
  filterR f l = inr xs -> forall x, x ∈ xs -> x ∈ l /\ f x = inr true.
Proof.
  revert xs. induction l as [|x0 l IH]; simpl; intros xs H x Hx.
  - inversion H; subst. by apply elem_of_nil in Hx.
  - destruct (f x0) as [e|b] eqn:Hfx; [done|].
    destruct (filterR f l) as [e|xs0] eqn:Hl; [done|].
    inversion H; subst. destruct b.
    + apply elem_of_cons in Hx as [->|Hx].
      * split; [left|done].
      * destruct (IH xs0 eq_refl x Hx). split; [by right|done].
    + destruct (IH xs0 eq_refl x Hx). split; [by right|done].
Qed.

Lemma isTrue_spec (v : JsValue) : isTrue v = true <-> v = JBool true.
Proof. destruct v as [| |[]| |]; simpl; split; congruence. Qed.

Lemma isTrue_truthy (v : JsValue) : isTrue v = true -> truthy v = true.
Proof. rewrite isTrue_spec. by intros ->. Qed.



End Lookup.

(** ** The option lists *)

Section Options.
Context `{L : Lib}.

Lemma subject_get_head_notin (a : string) (s : SubjectInfo) :
  a ∉ subject_keys s -> subject_get a s = None.
Proof.
  induction s as [|[b e] s IH]; simpl; [done|].
  intros Hnotin. apply not_elem_of_cons in Hnotin as [Hne Hnotin].
  rewrite decide_False by done. by apply IH.
Qed.

(** Without repeated addresses the entries come out in list order. *)
Lemma subject_values_NoDup (s : SubjectInfo) :
  NoDup (subject_keys s) -> subject_values s = s.*2.
Proof.
  unfold subject_values.
  assert (Hgen : forall pre, NoDup (subject_keys (pre ++ s)) ->
            omap (fun a => subject_get a (pre ++ s)) (subject_keys s) = s.*2).
  { induction s as [|[a e] s IH]; intros pre Hnd; [done|].
    simpl. unfold subject_keys in Hnd. rewrite fmap_app in Hnd. simpl in Hnd.
    assert (Hget : subject_get a (pre ++ (a, e) :: s) = Some e).
    { apply NoDup_app in Hnd as (_ & Hdisj & _).
      clear IH. induction pre as [|[b e'] pre IHp]; simpl.
      - by rewrite decide_True.
      - rewrite decide_False.
        + apply IHp. intros x Hx. apply Hdisj. by right.
        + intros ->. apply (Hdisj a); [left|left]. }
    rewrite Hget. simpl. f_equal.
    specialize (IH (pre ++ [(a, e)])).
    rewrite <- app_assoc in IH. simpl in IH. apply IH.
    unfold subject_keys. rewrite fmap_app. simpl. done. }
  intros Hnd. apply (Hgen []). done.
Qed.

Lemma addAccounts_fold (l : list SingleAddress) (o : KeyringOptions) :
  let o' := foldl (fun opts e =>
                     if negb (entryIsTesting e) then push_account (option_ e) opts
                     else push_testing (option_ e) opts) o l in
  account o' = account o ++ (option_ <$> filter (fun e => entryIsTesting e = false) l) /\
  testing o' = testing o ++ (option_ <$> filter (fun e => entryIsTesting e = true) l) /\
  address_ o' = address_ o /\ recent o' = recent o.
Proof.
  revert o. induction l as [|e l IH]; intros o; simpl.
  - by rewrite !app_nil_r.
  - destruct (IH (if negb (entryIsTesting e) then push_account (option_ e) o
                  else push_testing (option_ e) o)) as (Ha & Ht & Hd & Hr).
    rewrite Ha, Ht, Hd, Hr.
    destruct (entryIsTesting e) eqn:He; simpl.
    + rewrite filter_cons_False by congruence. rewrite filter_cons_True by done.
      simpl. by rewrite <- app_assoc.
    + rewrite filter_cons_True by done. rewrite filter_cons_False by congruence.
      simpl. by rewrite <- app_assoc.
Qed.

Lemma addAddresses_fold (l : list SingleAddress) (o : KeyringOptions) :
  let o' := foldl (fun opts e =>
                     if entryIsRecent e then push_recent (option_ e) opts
                     else push_address (option_ e) opts) o l in
  address_ o' = address_ o ++ (option_ <$> filter (fun e => entryIsRecent e = false) l) /\
  recent o' = recent o ++ (option_ <$> filter (fun e => entryIsRecent e = true) l) /\
  account o' = account o /\ testing o' = testing o.
Proof.
  revert o. induction l as [|e l IH]; intros o; simpl.
  - by rewrite !app_nil_r.
  - destruct (IH (if entryIsRecent e then push_recent (option_ e) o
                  else push_address (option_ e) o)) as (Ha & Hr & Hc & Ht).
    rewrite Ha, Hr, Hc, Ht.
    destruct (entryIsRecent e) eqn:He; simpl.
    + rewrite filter_cons_False by congruence. rewrite filter_cons_True by done.
      simpl. by rewrite <- app_assoc.
    + rewrite filter_cons_True by done. rewrite filter_cons_False by congruence.
      simpl. by rewrite <- app_assoc.
Qed.

Lemma headerIf_headed (title : string) (xs : KeyringSectionOptions) :
  headerIf xs title ++ xs = headed title xs.
Proof. by destruct xs. Qed.

Lemma recomputeOptions_shape (accs addrs : SubjectInfo) :
  let o := recomputeOptions accs addrs in
  let plain := option_ <$> filter (fun e => entryIsTesting e = false) (subject_values accs) in
  let dev := option_ <$> filter (fun e => entryIsTesting e = true) (subject_values accs) in
  let contacts := option_ <$> filter (fun e => entryIsRecent e = false) (subject_values addrs) in
  let rec := option_ <$> filter (fun e => entryIsRecent e = true) (subject_values addrs) in
  account o = headed "Accounts" plain ++ headed "Development" dev /\
  address_ o = headed "Addresses" contacts ++ headed "Recent" rec /\
  all o = account o ++ address_ o /\
  testing o = dev /\ recent o = rec.
Proof.
  intros o plain dev contacts rec. subst o. unfold recomputeOptions.
  unfold addAccounts, addAddresses.
  destruct (addAccounts_fold (subject_values accs) emptyOptions) as (Ha & Ht & Hd & Hr).
  simpl in Ha, Ht, Hd, Hr.
  match goal with |- context [foldl ?f (foldl ?g emptyOptions ?l1) ?l2] =>
    destruct (addAddresses_fold l2 (foldl g emptyOptions l1)) as (Ha' & Hr' & Hc' & Ht')
  end.
  simpl in Ha', Hr', Hc', Ht'. simpl.
  rewrite Hc', Ht', Ha', Hr', Ha, Ht, Hd, Hr. simpl.
  fold plain dev contacts rec.
  rewrite !app_assoc, !headerIf_headed.
  rewrite <- !app_assoc, !headerIf_headed. done.
Qed.

Lemma truthy_orFalse (v : JsValue) : truthy (orFalse v) = truthy v.
Proof. by destruct v. Qed.

Lemma headed_underHeader (title : string) (xs : KeyringSectionOptions) :
  headed title xs = underHeader (createOptionHeader title) xs.
Proof. by destruct xs. Qed.

(** C6.  For any two stores the recomputed options are: in [account],
    the header labelled "Accounts" and the options of the accounts whose
    [meta.isTesting] is falsy, in the order the store enumerates them,
    when there are any, then the header labelled "Development" and the
    options of the accounts whose [meta.isTesting] is truthy when there
    are any; in [address], the same with "Addresses" for the addresses
    whose [meta.isRecent] is falsy and "Recent" for those where it is
    truthy; in [all], the [account] list followed by the [address] list.
    A header is the disabled option with its label as name and text, the
    key [header-] and the label in lower case, and no value.  With a
    non-testing account A and then a testing account B added to an empty
    Account Store, [all] is the "Accounts" header, A, the "Development"
    header, B, and then the [address] list. *)
Theorem recomputeOptions_sections :
  let header := fun title key : string =>
    {| className := Some "header disabled"%string; name := title; key := key;
       text := title; value := None |} in
  let isTesting := fun e : SingleAddress => truthy (getProp (meta (json e)) "isTesting") in
  let isRecent := fun e : SingleAddress => truthy (getProp (meta (json e)) "isRecent") in
  (forall accs addrs : SubjectInfo,
     let o := recomputeOptions accs addrs in
     let plain := option_ <$> filter (fun e => isTesting e = false) (subject_values accs) in
     let dev := option_ <$> filter (fun e => isTesting e = true) (subject_values accs) in
     let contacts := option_ <$> filter (fun e => isRecent e = false) (subject_values addrs) in
     let rec := option_ <$> filter (fun e => isRecent e = true) (subject_values addrs) in
     account o = underHeader (header "Accounts" "header-accounts") plain ++
                 underHeader (header "Development" "header-development") dev /\
     address_ o = underHeader (header "Addresses" "header-addresses") contacts ++
                  underHeader (header "Recent" "header-recent") rec /\
     all o = account o ++ address_ o) /\
  (forall s : SubjectInfo, NoDup (subject_keys s) -> subject_values s = s.*2) /\
  (forall (a b : string) (ja jb : KeyringJson) (addrs : SubjectInfo),
     let o := recomputeOptions (subject_add b jb (subject_add a ja [])) addrs in
     a <> b ->
     truthy (getProp (meta ja) "isTesting") = false ->
     truthy (getProp (meta jb) "isTesting") = true ->
     all o = [header "Accounts" "header-accounts"; createOptionItem a ja;
              header "Development" "header-development"; createOptionItem b jb] ++
             address_ o).
Proof.
  intros header isTesting isRecent.
  assert (Hshape : forall accs addrs : SubjectInfo,
            let o := recomputeOptions accs addrs in
            account o =
              underHeader (header "Accounts" "header-accounts")
                (option_ <$> filter (fun e => isTesting e = false) (subject_values accs)) ++
              underHeader (header "Development" "header-development")
                (option_ <$> filter (fun e => isTesting e = true) (subject_values accs)) /\
            address_ o =
              underHeader (header "Addresses" "header-addresses")
                (option_ <$> filter (fun e => isRecent e = false) (subject_values addrs)) ++
              underHeader (header "Recent" "header-recent")
                (option_ <$> filter (fun e => isRecent e = true) (subject_values addrs)) /\
            all o = account o ++ address_ o).
  { intros accs addrs o.
    destruct (recomputeOptions_shape accs addrs) as (Ha & Hd & Hall & _).
    fold o in Ha, Hd, Hall.
    assert (Ht : forall (b : bool) (l : list SingleAddress),
              filter (fun e => entryIsTesting e = b) l = filter (fun e => isTesting e = b) l).
    { intros b l. apply list_filter_iff. intros e.
      unfold entryIsTesting, isTesting. by rewrite truthy_orFalse. }
    assert (Hr : forall (b : bool) (l : list SingleAddress),
              filter (fun e => entryIsRecent e = b) l = filter (fun e => isRecent e = b) l).
    { intros b l. apply list_filter_iff. intros e.
      unfold entryIsRecent, isRecent. by rewrite truthy_orFalse. }
    split; [|split; [|exact Hall]].
    - rewrite Ha, !headed_underHeader, !Ht. reflexivity.
    - rewrite Hd, !headed_underHeader, !Hr. reflexivity. }
  split; [exact Hshape|]. split; [apply subject_values_NoDup|].
  intros a b ja jb addrs o Hab Hta Htb.
  destruct (Hshape (subject_add b jb (subject_add a ja [])) addrs) as (Ha & _ & Hall).
  fold o in Ha, Hall. rewrite Hall, Ha. f_equal.
  set (ea := {| json := ja; option_ := createOptionItem a ja |}).
  set (eb := {| json := jb; option_ := createOptionItem b jb |}).
  assert (Hv : subject_values (subject_add b jb (subject_add a ja [])) = [ea; eb]).
  { unfold subject_values, subject_add. simpl.
    rewrite (decide_False (P := a = b)) by done. simpl.
    rewrite (decide_True (P := a = a)) by done. simpl.
    rewrite (decide_False (P := a = b)) by done.
    rewrite (decide_True (P := b = b)) by done. done. }
  rewrite Hv.
  rewrite (filter_cons_True (fun e => isTesting e = false) ea) by exact Hta.
  rewrite (filter_cons_False (fun e => isTesting e = false) eb)
    by (unfold isTesting; simpl; congruence).
  rewrite (filter_cons_False (fun e => isTesting e = true) ea)
    by (unfold isTesting; simpl; congruence).
  rewrite (filter_cons_True (fun e => isTesting e = true) eb) by exact Htb.
  reflexivity.
Qed.

End Options.

(** ** Construction *)

Section Construction.
Context `{L : Lib}.

(** Once the module variable is set, [new Keyring()] takes the early
    [return;]: it allocates, and touches nothing else. *)
Lemma construct_when_set (w : World) (s : nat) :
  singletonInstance w = Some s ->
  construct w =
  inr (length (objects w),
       {| singletonInstance := Some s; counter := counter w;
          objects := objects w ++ [{| id := 0; state_keyring := testKeyring |}];
          shared := shared w |}).
Proof. intros Hs. unfold construct. by rewrite Hs. Qed.

Lemma constructMany_when_set (k : nat) (w : World) (s : nat) :
  singletonInstance w = Some s ->
  exists rs w',
    constructMany k w = inr (rs, w') /\
    length rs = k /\
    singletonInstance w' = Some s /\
    counter w' = counter w /\
    shared w' = shared w /\
    length (objects w') = (length (objects w) + k)%nat.
Proof.
  revert w. induction k as [|k IH]; intros w Hs; simpl.
  - exists [], w. repeat split; auto with lia.
  - rewrite (construct_when_set w s Hs).
    edestruct (IH {| singletonInstance := Some s; counter := counter w;
                     objects := objects w ++ [{| id := 0; state_keyring := testKeyring |}];
                     shared := shared w |})
      as (rs & w' & Hrun & Hlen & Hs' & Hc & Hsh & Hobj); [done|].
    rewrite Hrun. exists (length (objects w) :: rs), w'.
    simpl in *. rewrite length_app in Hobj. simpl in Hobj.
    repeat split; auto with lia.
Qed.

(** C1.  The first [new Keyring()] of the module returns whenever its
    [loadAll()] does: the assertion holds.  It returns the object it has
    just registered in [singletonInstance], and the counter is 1.  Every
    construction after that returns normally, however many there are:
    none fails the assertion, and each leaves [singletonInstance], the
    counter and the shared stores as they were. *)
Theorem construct_registers_once (g : Globals) :
  (forall u st,
     loadAll {| globals := g; keyring := testKeyring |} = inr (u, st) ->
     exists w1, construct (initialWorld g) = inr (0%nat, w1)) /\
  (forall r1 w1,
     construct (initialWorld g) = inr (r1, w1) ->
     singletonInstance w1 = Some r1 /\
     counter w1 = 1 /\
     forall k, exists rs w',
       constructMany k w1 = inr (rs, w') /\
       length rs = k /\
       singletonInstance w' = Some r1 /\
       counter w' = 1 /\
       shared w' = shared w1).
Proof.
  split.
  - intros u st Hload. unfold construct, initialWorld. simpl. rewrite Hload.
    simpl. by eexists.
  - unfold construct, initialWorld. simpl. intros r1 w1 H.
    destruct (loadAll _) as [e|[u st]]; [done|].
    simpl in H. inversion H; subst. simpl.
    split; [done|]. split; [done|].
    intros k.
    edestruct (constructMany_when_set k) as (rs & w' & Hrun & Hlen & Hs' & Hc & Hsh & _);
      [|exists rs, w'; rewrite Hrun; repeat split; eauto].
    done.
Qed.

End Construction.

(** ** Loading and the migration of legacy keys *)

Section Loading.
Context `{L : Lib}.

Lemma bind_inr {A B} (m : M A) (k : A -> M B) (st : St) (y : B) (st' : St) :
  bind m k st = inr (y, st') ->
  exists x st1, m st = inr (x, st1) /\ k x st1 = inr (y, st').
Proof.
  unfold bind. destruct (m st) as [e|[x st1]]; [done|]. intros H. by exists x, st1.
Qed.

Lemma forEach_preserves {A B} (proj : St -> B) (f : A -> M unit) (l : list A) :
  (forall x st u st', f x st = inr (u, st') -> proj st' = proj st) ->
  forall st u st', forEach f l st = inr (u, st') -> proj st' = proj st.
Proof.
  intros Hf. induction l as [|x l IH]; simpl; intros st u st' H.
  - inversion H. done.
  - apply bind_inr in H as (u1 & st1 & H1 & H2).
    rewrite (IH _ _ _ H2). by eapply Hf.
Qed.


(** What the primitives leave behind. *)
Lemma accounts_add_inv (a : string) (j : KeyringJson) (st : St) (u : unit) (st' : St) :
  accounts_add a j st = inr (u, st') ->
  accounts st' = subject_add a j (accounts st) /\
  store st' = <[accountKey a := j]> (store st) /\
  addresses st' = addresses st /\ keyring st' = keyring st.
Proof.
  unfold accounts_add, store_set, modify, bind. simpl. intros H. by inversion H.
Qed.

Lemma addresses_add_inv (a : string) (j : KeyringJson) (st : St) (u : unit) (st' : St) :
  addresses_add a j st = inr (u, st') ->
  addresses st' = subject_add a j (addresses st) /\
  store st' = <[addressKey a := j]> (store st) /\
  accounts st' = accounts st /\ keyring st' = keyring st.
Proof.
  unfold addresses_add, store_set, modify, bind. simpl. intros H. by inversion H.
Qed.

Lemma keyring_addFromJson_inv (j : KeyringJson) (st : St) (p : Pair) (st' : St) :
  keyring_addFromJson j st = inr (p, st') ->
  exists r, reg_addFromJson j (keyring st) = Some (p, r) /\ st' = set_keyring r st.
Proof.
  unfold keyring_addFromJson, bind, gets, orThrow, modify, ret, throw.
  destruct (reg_addFromJson j (keyring st)) as [[q r]|]; simpl; [|done].
  intros H. inversion H; subst. by exists r.
Qed.

(** The rewrite of a legacy key: the key is removed, then the canonical
    key is built, which decodes the address segment, and written. *)
Lemma rewrite_account_key_inv (k h : string) (j : KeyringJson) (st : St) (u : unit) (st' : St) :
  bind (store_remove k) (fun _ => bind (accountKeyOf h) (fun c => store_set c j)) st
    = inr (u, st') ->
  is_Some (decodeAddress h) /\
  store st' = <[accountKey h := j]> (delete k (store st)) /\
  accounts st' = accounts st /\ addresses st' = addresses st /\ keyring st' = keyring st.
Proof.
  unfold accountKeyOf, store_remove, store_set, orThrow, modify, bind, ret, throw. simpl.
  destruct (decodeAddress h) as [pk|]; simpl; [|done].
  intros H. inversion H. split; [by eexists|done].
Qed.

Lemma rewrite_address_key_inv (k h : string) (j : KeyringJson) (st : St) (u : unit) (st' : St) :
  bind (store_remove k) (fun _ => bind (addressKeyOf h) (fun c => store_set c j)) st
    = inr (u, st') ->
  is_Some (decodeAddress h) /\
  store st' = <[addressKey h := j]> (delete k (store st)) /\
  accounts st' = accounts st /\ addresses st' = addresses st /\ keyring st' = keyring st.
Proof.
  unfold addressKeyOf, store_remove, store_set, orThrow, modify, bind, ret, throw. simpl.
  destruct (decodeAddress h) as [pk|]; simpl; [|done].
  intros H. inversion H. split; [by eexists|done].
Qed.

(** [addPairs] upserts one record per registry pair, in registry order. *)
Lemma forEach_accounts_add (l : list Pair) (st : St) :
  exists st',
    forEach (fun p =>
               accounts_add (pair_address p)
                 {| address := pair_address p; encoded := None; meta := pair_getMeta p |})
            l st = inr (tt, st') /\
    accounts st' =
      foldl (fun s p =>
               subject_add (pair_address p)
                 {| address := pair_address p; encoded := None; meta := pair_getMeta p |} s)
            (accounts st) l /\
    store st' =
      foldl (fun m p =>
               <[accountKey (pair_address p) :=
                   {| address := pair_address p; encoded := None; meta := pair_getMeta p |}]> m)
            (store st) l /\
    addresses st' = addresses st /\ keyring st' = keyring st.
Proof.
  revert st. induction l as [|p l IH]; intros st.
  - exists st. done.
  - simpl. unfold bind at 1.
    destruct (accounts_add (pair_address p)
                {| address := pair_address p; encoded := None; meta := pair_getMeta p |} st)
      as [e|[u st1]] eqn:H1; [discriminate|].
    apply accounts_add_inv in H1 as (Ha & Hs & Hd & Hk).
    destruct (IH st1) as (st' & Hrun & Ha' & Hs' & Hd' & Hk').
    exists st'. rewrite Hrun, Ha', Hs', Hd', Hk', Ha, Hs, Hd, Hk. done.
Qed.

Lemma addPairs_run (st : St) :
  exists st',
    addPairs st = inr (tt, st') /\
    accounts st' =
      foldl (fun s p =>
               subject_add (pair_address p)
                 {| address := pair_address p; encoded := None; meta := pair_getMeta p |} s)
            (accounts st) (reg_getPairs (keyring st)) /\
    store st' =
      foldl (fun m p =>
               <[accountKey (pair_address p) :=
                   {| address := pair_address p; encoded := None; meta := pair_getMeta p |}]> m)
            (store st) (reg_getPairs (keyring st)) /\
    addresses st' = addresses st /\ keyring st' = keyring st.
Proof. exact (forEach_accounts_add (reg_getPairs (keyring st)) st). Qed.

(** The persisted records after [addPairs]: a key that is no pair's
    account key keeps what it held, and every record is one that was
    there or the record of a pair, under that pair's account key. *)
Lemma addPairs_store_lookup (l : list Pair) (m : gmap string KeyringJson) :
  let m' := foldl (fun m p =>
                     <[accountKey (pair_address p) :=
                         {| address := pair_address p; encoded := None;
                            meta := pair_getMeta p |}]> m) m l in
  (forall k, (forall p, p ∈ l -> accountKey (pair_address p) <> k) -> m' !! k = m !! k) /\
  (forall k j, m' !! k = Some j ->
     m !! k = Some j \/
     exists p, p ∈ l /\ k = accountKey (pair_address p) /\
       j = {| address := pair_address p; encoded := None; meta := pair_getMeta p |}).
Proof.
  induction l as [|x l IH] using rev_ind; simpl.
  - split; [done|]. intros k j Hk. by left.
  - rewrite foldl_app. simpl. destruct IH as [IH1 IH2]. split.
    + intros k Hk. rewrite lookup_insert_ne.
      * apply IH1. intros p Hp. apply Hk. apply elem_of_app. by left.
      * apply Hk. apply elem_of_app. right. by apply list_elem_of_singleton.
    + intros k j Hk. destruct (decide (accountKey (pair_address x) = k)) as [<-|Hne].
      * rewrite lookup_insert_eq in Hk. inversion Hk; subst. right. exists x.
        split; [apply elem_of_app; right; by apply list_elem_of_singleton|done].
      * rewrite lookup_insert_ne in Hk by done.
        destruct (IH2 k j Hk) as [?|(p & Hp & ? & ?)]; [by left|].
        right. exists p. split; [apply elem_of_app; by left|done].
Qed.

Lemma splitOn_nonempty (sep : ascii) (s : string) : splitOn sep s <> [].
Proof.
  destruct s as [|c s]; simpl; [done|].
  destruct (Ascii.eqb c sep); [done|]. by destruct (splitOn sep s).
Qed.

Lemma prefix_append (p k : string) :
  String.prefix p k = true -> exists rest, k = String.append p rest.
Proof.
  revert k. induction p as [|a p IH]; intros k H.
  - by exists k.
  - destruct k as [|b k]; simpl in H; [discriminate|].
    destruct (ascii_dec a b) as [->|]; [|discriminate].
    destruct (IH k H) as [rest ->]. by exists rest.
Qed.

(** The address segment of a prefixed key is what follows the prefix, up
    to the next colon. *)
Lemma hexAddrOf_prefixed (k : string) :
  isPrefixed k = true ->
  exists rest w ws, splitOn ":" rest = w :: ws /\ hexAddrOf k = Some w /\
    (k = String.append ACCOUNT_PREFIX rest \/ k = String.append ADDRESS_PREFIX rest).
Proof.
  unfold isPrefixed, accountRegex, addressRegex. intros H.
  apply orb_true_iff in H as [H|H]; apply prefix_append in H as [rest ->];
    destruct (splitOn ":" rest) as [|w ws] eqn:Hs;
    try (by apply splitOn_nonempty in Hs);
    exists rest, w, ws; (split; [done|]); (split; [|auto]);
    unfold hexAddrOf, ACCOUNT_PREFIX, ADDRESS_PREFIX; cbv [String.append]; simpl;
    by rewrite Hs.
Qed.

Lemma startsWith0x_inv (s : string) :
  startsWith0x s = true -> exists rest, s = String "0" (String "x" rest).
Proof.
  unfold startsWith0x. destruct s as [|c1 [|c2 s]]; simpl; intros H.
  - discriminate.
  - destruct (Ascii.eqb c1 "0"); discriminate.
  - destruct (Ascii.eqb c1 "0") eqn:H1; [|discriminate].
    destruct (Ascii.eqb c2 "x") eqn:H2; [|discriminate].
    apply Ascii.eqb_eq in H1, H2. subst. by exists s.
Qed.

Lemma prefix_of_append (p x : string) : String.prefix p (String.append p x) = true.
Proof.
  induction p as [|c p IH]; [by destruct x|].
  change (String.append (String c p) x) with (String c (String.append p x)).
  simpl. by destruct (ascii_dec c c).
Qed.

Lemma accountKey_account (a : string) : accountRegex (accountKey a) = true.
Proof. apply prefix_of_append. Qed.

Lemma addressKey_address (a : string) :
  accountRegex (addressKey a) = false /\ addressRegex (addressKey a) = true.
Proof. split; [reflexivity|apply prefix_of_append]. Qed.


(** One visit changes the persisted records as [migrateOne] says, for the
    key under which it upserted the record, if it did. *)
Lemma loadRecord_store (j : KeyringJson) (k : string) (st : St) (u : unit) (st' : St) :
  loadRecord j k st = inr (u, st') ->
  exists up,
    (forall c, up = Some c -> upsertsUnder k j c) /\
    store st' = migrateOne up (store st) (k, j).
Proof.
  unfold loadRecord, migrateOne, isLegacy, isPrefixed, isCanonical, canonicalKey. simpl.
  destruct (accountRegex k) eqn:Hacc; simpl.
  - intros H. apply bind_inr in H as (u1 & st1 & H1 & H2).
    assert (Hup : exists up,
              (forall c, up = Some c -> upsertsUnder k j c) /\
              store st1 = match up with
                          | Some c => <[c := j]> (store st)
                          | None => store st
                          end).
    { destruct (negb (truthy (getProp (meta j) "isTesting")) && hasEncoded j) eqn:Hc.
      - apply bind_inr in H1 as (p & st0 & Hp & Hadd).
        apply keyring_addFromJson_inv in Hp as (r & Hreg & ->).
        apply accounts_add_inv in Hadd as (_ & Hs & _ & _).
        exists (Some (accountKey (pair_address p))). split; [|exact Hs].
        intros c Hc'. inversion Hc'; subst. left.
        split; [done|]. split; [done|]. by exists (keyring st), p, r.
      - inversion H1; subst. exists None. split; [discriminate|done]. }
    destruct Hup as (up & Hup & Hs1). exists up. split; [exact Hup|].
    destruct (hexAddrOf k) as [h|]; [|discriminate]. simpl.
    destruct (startsWith0x h); simpl in *.
    + inversion H2; subst. exact Hs1.
    + apply rewrite_account_key_inv in H2 as (_ & Hs & _). rewrite Hs, Hs1. done.
  - destruct (addressRegex k) eqn:Haddr; simpl.
    + intros H. apply bind_inr in H as (u8a & st1 & H1 & H2).
      assert (Hb : normalizedBytes j = Some u8a /\ st1 = st).
      { unfold normalizedBytes. destruct (isHex (address j)); [by inversion H1|].
        destruct (decodeAddress (address j)); by inversion H1. }
      destruct Hb as [Hb ->].
      apply bind_inr in H2 as (a & st1 & Ha & H2).
      assert (Ha' : a = encodeAddress u8a /\ st1 = st).
      { unfold encodeAddressOf in Ha. destruct (encodable u8a); by inversion Ha. }
      destruct Ha' as [-> ->].
      apply bind_inr in H2 as (u2 & st2 & Hadd & H3).
      apply addresses_add_inv in Hadd as (_ & Hs2 & _ & _).
      exists (Some (addressKey (encodeAddress u8a))). split.
      { intros c Hc'. inversion Hc'; subst. right.
        split; [unfold isAddressRecord; by rewrite Hacc, Haddr|]. by exists u8a. }
      destruct (hexAddrOf k) as [h|]; [|discriminate]. simpl.
      destruct (startsWith0x h); simpl in *.
      * inversion H3; subst. exact Hs2.
      * apply rewrite_address_key_inv in H3 as (_ & Hs & _). rewrite Hs, Hs2. done.
    + intros H. inversion H; subst. exists None. split; [discriminate|done].
Qed.

Section Canonical.
Hypothesis toHex_0x : forall a, startsWith0x (toHex a) = true.

Lemma hexKey_canonical (prefix h : string) :
  prefix = ACCOUNT_PREFIX \/ prefix = ADDRESS_PREFIX ->
  isPrefixed (String.append prefix (toHex h)) = true /\
  isCanonical (String.append prefix (toHex h)) = true.
Proof.
  intros Hp.
  destruct (startsWith0x_inv _ (toHex_0x h)) as [rest Hrest].
  rewrite Hrest.
  destruct (splitOn ":" rest) as [|w ws] eqn:Hs; [by apply splitOn_nonempty in Hs|].
  destruct Hp as [-> | ->];
    unfold isPrefixed, isCanonical, hexAddrOf, accountRegex, addressRegex,
      ACCOUNT_PREFIX, ADDRESS_PREFIX;
    cbv [String.append]; simpl; rewrite Hs; simpl; by destruct w.
Qed.

Lemma accountKey_not_legacy (a : string) : isLegacy (accountKey a) = false.
Proof.
  unfold isLegacy, accountKey.
  destruct (hexKey_canonical ACCOUNT_PREFIX a) as [_ ->]; [by left|]. apply andb_false_r.
Qed.

Lemma addressKey_not_legacy (a : string) : isLegacy (addressKey a) = false.
Proof.
  unfold isLegacy, addressKey.
  destruct (hexKey_canonical ADDRESS_PREFIX a) as [_ ->]; [by right|]. apply andb_false_r.
Qed.

Lemma canonicalKey_canonical (k : string) :
  isPrefixed (canonicalKey k) = true /\ isCanonical (canonicalKey k) = true.
Proof.
  unfold canonicalKey, accountKey, addressKey.
  destruct (accountRegex k); apply hexKey_canonical; auto.
Qed.

Lemma canonicalKey_not_legacy (k : string) : isLegacy (canonicalKey k) = false.
Proof.
  unfold isLegacy. destruct (canonicalKey_canonical k) as [_ ->].
  apply andb_false_r.
Qed.

Lemma upsertsUnder_not_legacy (k : string) (j : KeyringJson) (c : string) :
  upsertsUnder k j c -> isLegacy c = false.
Proof.
  intros [(_ & _ & r & p & r' & _ & ->)|(_ & u8a & _ & ->)].
  - apply accountKey_not_legacy.
  - apply addressKey_not_legacy.
Qed.

Lemma writesUnder_not_legacy (k : string) (j : KeyringJson) (c : string) :
  writesUnder k j c -> isLegacy c = false.
Proof.
  intros [[_ ->]|H]; [apply canonicalKey_not_legacy|by eapply upsertsUnder_not_legacy].
Qed.


(** After one visit, a legacy key holds nothing if it is the visited key
    and what it held otherwise. *)
Lemma loadRecord_legacy (j0 : KeyringJson) (k0 : string) (st : St) (u : unit) (st1 : St)
    (k : string) :
  loadRecord j0 k0 st = inr (u, st1) -> isLegacy k = true ->
  store st1 !! k = if decide (k = k0) then None else store st !! k.
Proof.
  intros H Hk. apply loadRecord_store in H as (up & Hup & ->).
  unfold migrateOne. simpl.
  assert (Hm : match up with
               | Some c => <[c := j0]> (store st)
               | None => store st
               end !! k = store st !! k).
  { destruct up as [c|]; [|done]. rewrite lookup_insert_ne; [done|].
    intros ->. rewrite (upsertsUnder_not_legacy k0 j0 k) in Hk; [done|by apply Hup]. }
  assert (Hck : forall k', canonicalKey k' <> k).
  { intros k' Heq. rewrite <- Heq, canonicalKey_not_legacy in Hk. done. }
  destruct (decide (k = k0)) as [<-|Hne].
  - rewrite Hk. rewrite lookup_insert_ne by apply Hck. apply lookup_delete_eq.
  - destruct (isLegacy k0); [|exact Hm].
    rewrite lookup_insert_ne by apply Hck. by rewrite lookup_delete_ne.
Qed.



(** A legacy key that is visited is gone for good. *)
Lemma forEach_loadRecord_legacy (l : list (string * KeyringJson)) (st : St) (u : unit)
    (st' : St) (k : string) :
  forEach (fun kj => loadRecord kj.2 kj.1) l st = inr (u, st') ->
  isLegacy k = true ->
  store st' !! k = if decide (k ∈ l.*1) then None else store st !! k.
Proof.
  intros H Hk. revert st H. induction l as [|[k0 j0] l IH]; intros st H.
  - inversion H; subst. rewrite decide_False; [done|]. apply not_elem_of_nil.
  - simpl in H. apply bind_inr in H as (u1 & st1 & H1 & H2).
    rewrite (IH _ H2), fmap_cons. change ((k0, j0).1) with k0.
    rewrite (loadRecord_legacy _ _ _ _ _ k H1 Hk).
    destruct (decide (k ∈ l.*1)) as [Hin|Hnotin].
    + rewrite decide_True; [done|]. by right.
    + destruct (decide (k = k0)) as [->|Hne].
      * rewrite decide_True; [done|]. left.
      * rewrite decide_False; [done|]. by intros [?|?]%elem_of_cons.
Qed.


End Canonical.

(** A [loadAll()] that returns has run [addPairs], then the visitor over
    the records persisted at that point; [initOptions] changes neither
    store. *)
Lemma loadAll_inv (st : St) (u : unit) (st' : St) :
  loadAll st = inr (u, st') ->
  exists st1 st2,
    addPairs st = inr (tt, st1) /\
    forEach (fun kj => loadRecord kj.2 kj.1) (map_to_list (store st1)) st1 = inr (tt, st2) /\
    store st' = store st2 /\ accounts st' = accounts st2 /\ addresses st' = addresses st2 /\
    keyring st' = keyring st2.
Proof.
  unfold loadAll. intros H.
  apply bind_inr in H as ([] & st1 & H1 & H).
  apply bind_inr in H as ([] & st2 & H2 & H3).
  exists st1, st2. split; [done|]. split; [exact H2|].
  unfold initOptions in H3. destruct (hasCalledInitOptions st2); by inversion H3.
Qed.

(** After the visitor has run over the persisted records, none of the
    keys that are persisted is legacy. *)
Lemma forEach_visits_every_legacy_key
    (toHex_0x : forall a, startsWith0x (toHex a) = true)
    (st1 : St) (u : unit) (st2 : St) :
  forEach (fun kj => loadRecord kj.2 kj.1) (map_to_list (store st1)) st1 = inr (u, st2) ->
  forall k j, store st2 !! k = Some j -> isLegacy k = false.
Proof.
  intros Hvisit k j Hj. destruct (isLegacy k) eqn:Hleg; [|done]. exfalso.
  rewrite (forEach_loadRecord_legacy toHex_0x _ _ _ _ k Hvisit Hleg) in Hj.
  destruct (decide (k ∈ (map_to_list (store st1)).*1)) as [Hin|Hnotin]; [discriminate|].
  apply Hnotin. apply list_elem_of_fmap. exists (k, j).
  split; [done|]. by apply elem_of_map_to_list.
Qed.

Lemma loadAll_leaves_no_legacy_key
    (toHex_0x : forall a, startsWith0x (toHex a) = true)
    (st : St) (u : unit) (st' : St) :
  loadAll st = inr (u, st') ->
  forall k j, store st' !! k = Some j -> isLegacy k = false.
Proof.
  intros Hload k j Hj.
  apply loadAll_inv in Hload as (st1 & st2 & _ & Hvisit & Hst & _).
  rewrite Hst in Hj. by eapply forEach_visits_every_legacy_key.
Qed.


End Loading.

(** ** The facade run on the sample collaborators *)

Module Runs.
Import Sample.

Lemma sample_pair_laws : PairLaws lib.
Proof. split; reflexivity. Qed.

Lemma sample_lock_laws : LockLaws lib.
Proof.
  split; [reflexivity|].
  intros pw p p' H. simpl in H. unfold sp_decodePkcs8 in H.
  destruct (String.eqb pw (sp_password p)); [|discriminate].
  by inversion H.
Qed.

Lemma sample_toHex_0x : forall a, startsWith0x (toHex a) = true.
Proof. intros a. by destruct a. Qed.

Example split_keeps_every_part :
  splitOn ":" "account:ab:z" = ["account"; "ab"; "z"]%string.
Proof. reflexivity. Qed.

Example hexAddrOf_canonical_key : hexAddrOf (accountKey "ab") = Some "0xab"%string.
Proof. reflexivity. Qed.

Example createOptionHeader_accounts :
  createOptionHeader "Accounts" =
  {| className := Some "header disabled"%string; name := "Accounts";
     key := "header-accounts"; text := "Accounts"; value := None |}.
Proof. reflexivity. Qed.

(** Alice saved, then the testing pair Bob: both sections of [account],
    and nothing on the address side. *)
Example options_alice_then_bob :
  all (recomputeOptions
         (subject_add "5Bob" (sp_toJson None bob)
            (subject_add "5Alice" (sp_toJson None alice) []))
         []) =
  [createOptionHeader "Accounts"; s_createOptionItem "5Alice" (sp_toJson None alice);
   createOptionHeader "Development"; s_createOptionItem "5Bob" (sp_toJson None bob)].
Proof. reflexivity. Qed.

Example getPairs_hides_testing_pairs :
  getPairs {| globals := noGlobals; keyring := [alice; bob] |} = [alice] /\
  getPairs (set_isDevelopment true {| globals := noGlobals; keyring := [alice; bob] |})
  = [alice; bob].
Proof. split; reflexivity. Qed.

(** C1 at the sample: the first construction returns object 0 and
    registers it; two more constructions return. *)
Lemma construct_registers_once_sample :
  exists r1 w1,
    construct (initialWorld noGlobals) = inr (r1, w1) /\
    singletonInstance w1 = Some r1 /\
    counter w1 = 1 /\
    exists rs w',
      constructMany 2 w1 = inr (rs, w') /\
      length rs = 2%nat /\
      singletonInstance w' = Some r1 /\
      counter w' = 1 /\
      shared w' = shared w1.
Proof.
  eexists _, _. split; [reflexivity|].
  match goal with
  | |- singletonInstance ?w = Some ?r /\ _ =>
      destruct (construct_registers_once noGlobals) as [_ Hfirst];
      destruct (Hfirst r w eq_refl) as (Hs & Hc & Hmany)
  end.
  split; [exact Hs|]. split; [exact Hc|]. exact (Hmany 2%nat).
Defined.

(** The claim of C1 fails on the module as it starts: the second
    [new Keyring()] evaluates to a new object, not to the first one, and
    the third returns too, where a failed assertion was claimed. *)
Lemma construct_thrice_returns_three_objects :
  exists w1 w2 w3,
    construct (initialWorld noGlobals) = inr (0%nat, w1) /\
    construct w1 = inr (1%nat, w2) /\
    construct w2 = inr (2%nat, w3) /\
    singletonInstance w3 = Some 0%nat.
Proof.
  eexists _, _, _. split; [reflexivity|]. split; [reflexivity|].
  split; reflexivity.
Qed.

(** C7 at the sample: available on empty stores, not after
    [saveRecent]. *)
Lemma isAvailable_iff_in_neither_store_sample :
  isAvailable (AddrString "5Carol") emptySt = true /\
  exists r st',
    saveRecent 1000 "5Carol" emptySt = inr (r, st') /\
    isAvailable (AddrString "5Carol") st' = false.
Proof.
  destruct (isAvailable_iff_in_neither_store (laws := sample_pair_laws)
              (AddrString "5Carol") emptySt) as (_ & Hempty & _ & _ & Hrecent).
  split; [apply Hempty; reflexivity|].
  eexists _, _. split; [reflexivity|].
  eapply Hrecent. reflexivity.
Defined.

(** The claim of C7 fails for an address that [addPair] (the step
    [restoreAccount] persists with) has stored: no [saveAccount],
    [saveAddressMeta] or [saveRecent] has run for it, and it is not
    available. *)
Lemma isAvailable_false_after_addPair :
  exists st',
    addPair 1000 (sp_toJson (Some "secret"%string) alice) emptySt = inr (tt, st') /\
    isAvailable (AddrString "5Alice") emptySt = true /\
    isAvailable (AddrString "5Alice") st' = false.
Proof.
  eexists. split; [reflexivity|]. split; reflexivity.
Qed.

(** C8 at the sample: an unlocked pair and its password. *)
Lemma backupAccount_locks_then_decodes_sample :
  exists j p',
    backupAccount alice "secret" = inr (j, p') /\
    pair_isLocked p' = false /\
    backupAccount alice "wrong" = inl WrongPassword.
Proof.
  destruct (backupAccount_locks_then_decodes (laws := sample_lock_laws) alice "secret")
    as [_ [Hok Hunlocked]].
  destruct (backupAccount_locks_then_decodes (laws := sample_lock_laws) alice "wrong")
    as [_ Hwrong].
  eexists _, _. split; [exact Hok|]. split; [exact Hunlocked|exact Hwrong].
Defined.

(** C9 at the sample: a pair without [whenCreated], saved at 1000 and
    again at 2000. *)
Lemma saveAccount_keeps_whenCreated_sample :
  exists p1 st1 p2 st2 e1 e2,
    saveAccount 1000 alice (Some "secret"%string) emptySt = inr (p1, st1) /\
    saveAccount 2000 p1 (Some "secret"%string) st1 = inr (p2, st2) /\
    subject_get "5Alice" (accounts st1) = Some e1 /\
    subject_get "5Alice" (accounts st2) = Some e2 /\
    getProp (meta (json e1)) "whenCreated" = JNumber 1000 /\
    getProp (meta (json e2)) "whenCreated" = JNumber 1000.
Proof.
  eexists _, _, _, _.
  match goal with
  | |- exists e1 e2, ?f1 = inr (?p1, ?st1) /\ ?f2 = inr (?p2, ?st2) /\ _ =>
      destruct (saveAccount_keeps_whenCreated (laws := sample_pair_laws)
                  1000 2000 alice (Some "secret"%string) (Some "secret"%string)
                  emptySt p1 st1 p2 st2)
        as (e1 & e2 & H1 & H2 & _ & Hfirst & Hsame);
        [lia | reflexivity | reflexivity |]
  end.
  exists e1, e2. split; [reflexivity|]. split; [reflexivity|].
  split; [exact H1|]. split; [exact H2|].
  split; [exact Hfirst|]. rewrite Hsame. exact Hfirst.
Defined.


End Runs.

(** ** The facade run on the strict collaborators *)

Module ChainRuns.
Import Chain.

Lemma returned_inr {A} (r : Result (A * St)) (d : A) (st0 : St) :
  returned r = true -> r = inr (valueAfter d r, stateAfter st0 r).
Proof. by destruct r as [e|[x st]]. Qed.

Lemma returned_unit (r : Result (unit * St)) (st0 : St) :
  returned r = true -> r = inr (tt, stateAfter st0 r).
Proof. by destruct r as [e|[[] st]]. Qed.

Lemma chain_toHex_0x : forall a, startsWith0x (toHex a) = true.
Proof.
  intros a. simpl. unfold c_toHex, u8aToHex.
  destruct (c_decodeAddress a) as [u8a|]; [|reflexivity].
  cbv [String.append]. unfold startsWith0x. simpl.
  by destruct (String.concat "" (byteHex <$> u8a)).
Qed.

Lemma chain_pair_laws : PairLaws strictLib.
Proof. split; reflexivity. Qed.

Example accountKey_alice :
  accountKey aliceAddress =
  "account:0xd43593c715fdd31c61141abd04a99fd6822c8558854ccde39a5684e7a56da27d"%string.
Proof. vm_compute. reflexivity. Qed.

Example encodeAddress_alice : encodeAddress (hexToU8a alicePublicKey) = aliceAddress.
Proof. vm_compute. reflexivity. Qed.



End ChainRuns.

(** * Further properties *)

(** ** Listing the stores *)

Section Listing.
Context `{L : Lib}.

Lemma subject_get_key (a : string) (s : SubjectInfo) :
  a ∈ subject_keys s <-> is_Some (subject_get a s).
Proof.
  induction s as [|[b e] s IH]; simpl.
  - split; [by intros ?%elem_of_nil|by intros [? ?]].
  - destruct (decide (b = a)) as [->|Hne].
    + split; [by eexists|]. intros _. left.
    + rewrite <- IH. split.
      * intros [?|?]%elem_of_cons; [congruence|done].
      * intros ?. by right.
Qed.

Lemma subject_get_None (a : string) (s : SubjectInfo) :
  subject_get a s = None <-> a ∉ subject_keys s.
Proof. rewrite subject_get_key. apply eq_None_not_Some. Qed.

(** [keys.map((address) => this.getAddress(address, type))] returns the
    handles of the keys, one for one, or throws at a key that does not
    decode. *)
Lemma mapR_getAddress_inr (ty : AddressType) (keys : list string) (hs : list KeyringAddress) :
  mapR (fun a => getAddress (AddrString a) ty) keys = inr hs ->
  captured_address <$> hs = keys /\
  Forall (fun h => captured_type h = ty) hs.
Proof.
  revert hs. induction keys as [|a keys IH]; simpl; intros hs H.
  - inversion H. by split.
  - unfold getAddress in H at 1. simpl in H.
    destruct (decodeAddress a) as [pk|]; [|discriminate].
    destruct (mapR _ keys) as [e|hs0]; [discriminate|].
    inversion H; subst. destruct (IH hs0 eq_refl) as [Hk Hty].
    simpl. split; [by f_equal|]. by constructor.
Qed.

Lemma mapR_getAddress_inl (ty : AddressType) (keys : list string) (e : Error) :
  mapR (fun a => getAddress (AddrString a) ty) keys = inl e ->
  e = InvalidAddress /\ exists a, a ∈ keys /\ decodeAddress a = None.
Proof.
  induction keys as [|a keys IH]; simpl; intros H; [discriminate|].
  unfold getAddress in H at 1. simpl in H.
  destruct (decodeAddress a) as [pk|] eqn:Hd.
  - destruct (mapR _ keys) as [e'|hs0]; [|discriminate].
    inversion H; subst. destruct (IH eq_refl) as (-> & b & Hb & Hdb).
    split; [done|]. exists b. split; [by right|done].
  - inversion H; subst. split; [done|]. exists a. split; [left|done].
Qed.

Lemma mapR_getAddress_undecodable (ty : AddressType) (keys : list string) (a : string) :
  a ∈ keys -> decodeAddress a = None ->
  mapR (fun a => getAddress (AddrString a) ty) keys = inl InvalidAddress.
Proof.
  intros Hin Hd.
  destruct (mapR (fun a => getAddress (AddrString a) ty) keys) as [e|hs] eqn:Hm.
  - by apply mapR_getAddress_inl in Hm as [-> _].
  - exfalso. revert hs Hm. induction keys as [|b keys IH]; intros hs Hm.
    + by apply elem_of_nil in Hin.
    + simpl in Hm. unfold getAddress in Hm at 1. simpl in Hm.
      apply elem_of_cons in Hin as [<-|Hin].
      * rewrite Hd in Hm. discriminate.
      * destruct (decodeAddress b); [|discriminate].
        destruct (mapR _ keys) as [e|hs0]; [discriminate|]. by eapply IH.
Qed.

Lemma filterR_total {A} (f : A -> Result bool) (g : A -> bool) (l : list A) :
  (forall x, x ∈ l -> f x = inr (g x)) ->
  filterR f l = inr (filter (fun x => g x = true) l).
Proof.
  induction l as [|x l IH]; intros Hf; simpl; [done|].
  rewrite (Hf x) by left. rewrite IH by (intros y Hy; apply Hf; by right).
  destruct (g x) eqn:Hg.
  - by rewrite filter_cons_True.
  - rewrite filter_cons_False; [done|]. congruence.
Qed.

Lemma fmap_filter_comm {A B} (f : A -> B) (g : B -> bool) (l : list A) :
  f <$> filter (fun x => g (f x) = true) l = filter (fun y => g y = true) (f <$> l).
Proof.
  induction l as [|x l IH]; [done|].
  rewrite fmap_cons. destruct (g (f x)) eqn:Hg.
  - rewrite !filter_cons_True by done. rewrite fmap_cons. by rewrite IH.
  - rewrite !filter_cons_False by congruence. done.
Qed.

Lemma getAccounts_of_handles (st : St) (hs0 : list KeyringAddress) :
  mapR (fun a => getAddress (AddrString a) TypeAccount) (subject_keys (accounts st)) = inr hs0 ->
  getAccounts st =
  inr (filter (fun h => keptAccount st (captured_address h) = true) hs0).
Proof.
  intros Hm. unfold getAccounts. rewrite Hm.
  apply filterR_total. intros h Hh.
  destruct (mapR_getAddress_inr _ _ _ Hm) as [Hk Hty].
  rewrite Forall_forall in Hty. specialize (Hty h Hh).
  assert (Hin : captured_address h ∈ subject_keys (accounts st)).
  { rewrite <- Hk. apply list_elem_of_fmap. by exists h. }
  apply subject_get_key in Hin as [e He].
  unfold getMeta, keptAccount. rewrite Hty. simpl. by rewrite He.
Qed.

(** X1.  When [getAccounts()] returns, the handles it returns are those of
    the Account Store's addresses whose entry has a falsy
    [meta.isTesting], in the store's order, none left out.  It throws
    exactly when some address of the store does not decode, a testing
    account's included, and then with the decoder's error: the unguarded
    [getMeta()] of a handle never fails inside it. *)
Theorem getAccounts_lists_non_testing_keys (st : St) :
  (forall hs, getAccounts st = inr hs ->
     captured_address <$> hs =
       filter (fun a => keptAccount st a = true) (subject_keys (accounts st)) /\
     Forall (fun h => captured_type h = TypeAccount) hs) /\
  (forall e, getAccounts st = inl e -> e = InvalidAddress) /\
  (forall a, a ∈ subject_keys (accounts st) -> decodeAddress a = None ->
     getAccounts st = inl InvalidAddress) /\
  ((forall a, a ∈ subject_keys (accounts st) -> is_Some (decodeAddress a)) ->
   exists hs, getAccounts st = inr hs).
Proof.
  destruct (mapR (fun a => getAddress (AddrString a) TypeAccount)
              (subject_keys (accounts st))) as [e0|hs0] eqn:Hm.
  - assert (Hacc : getAccounts st = inl e0) by (unfold getAccounts; by rewrite Hm).
    destruct (mapR_getAddress_inl _ _ _ Hm) as (-> & b & Hb & Hdb).
    split; [|split; [|split]].
    + intros hs H. rewrite Hacc in H. discriminate.
    + intros e H. rewrite Hacc in H. by inversion H.
    + done.
    + intros Hall. destruct (Hall b Hb) as [pk Hpk]. congruence.
  - pose proof (getAccounts_of_handles st hs0 Hm) as Hacc.
    destruct (mapR_getAddress_inr _ _ _ Hm) as [Hk Hty].
    split; [|split; [|split]].
    + intros hs H. rewrite Hacc in H. inversion H; subst. split.
      * rewrite <- Hk. apply (fmap_filter_comm captured_address (keptAccount st)).
      * rewrite Forall_forall in Hty |- *. intros h Hh.
        apply list_elem_of_filter in Hh as [_ Hh]. by apply Hty.
    + intros e H. rewrite Hacc in H. discriminate.
    + intros a Ha Hd.
      rewrite (mapR_getAddress_undecodable TypeAccount _ a Ha Hd) in Hm. discriminate.
    + intros _. by eexists.
Qed.

(** X2.  When [getAddresses()] returns, it returns one handle per address
    of the Address Store, in the store's order, recent addresses
    included, and every one of them is valid and has its entry's
    metadata.  It throws exactly when some address of the store does not
    decode. *)
Theorem getAddresses_lists_every_key (st : St) :
  (forall hs, getAddresses st = inr hs ->
     captured_address <$> hs = subject_keys (addresses st) /\
     forall h, h ∈ hs ->
       isValid h st = true /\
       exists e, subject_get (captured_address h) (addresses st) = Some e /\
                 getMeta h st = inr (meta (json e))) /\
  (forall e, getAddresses st = inl e ->
     e = InvalidAddress /\
     exists a, a ∈ subject_keys (addresses st) /\ decodeAddress a = None) /\
  (forall a, a ∈ subject_keys (addresses st) -> decodeAddress a = None ->
     getAddresses st = inl InvalidAddress).
Proof.
  unfold getAddresses. split; [|split].
  - intros hs Hm. destruct (mapR_getAddress_inr _ _ _ Hm) as [Hk Hty].
    split; [done|]. intros h Hh.
    rewrite Forall_forall in Hty. specialize (Hty h Hh).
    assert (Hin : captured_address h ∈ subject_keys (addresses st)).
    { rewrite <- Hk. apply list_elem_of_fmap. by exists h. }
    apply subject_get_key in Hin as [e He].
    unfold isValid, getMeta. rewrite Hty. simpl. rewrite He.
    split; [by apply bool_decide_eq_true|]. by exists e.
  - intros e Hm. by apply mapR_getAddress_inl in Hm.
  - intros a Ha Hd. by eapply mapR_getAddress_undecodable.
Qed.

End Listing.

(** ** Forgetting and promoting addresses *)

Section Contacts.
Context `{L : Lib}.

Lemma subject_get_remove_eq (a : string) (s : SubjectInfo) :
  subject_get a (subject_remove a s) = None.
Proof.
  apply subject_get_None. unfold subject_keys, subject_remove.
  rewrite list_elem_of_fmap. intros ([b e] & -> & Hin).
  apply list_elem_of_filter in Hin as [Hne _]. by apply Hne.
Qed.

Lemma subject_get_remove_ne (a b : string) (s : SubjectInfo) :
  a <> b -> subject_get b (subject_remove a s) = subject_get b s.
Proof.
  intros Hab. unfold subject_remove. induction s as [|[c e] s IH]; [done|].
  destruct (decide (c = a)) as [->|Hne].
  - rewrite filter_cons_False by (simpl; tauto).
    rewrite IH. simpl. by rewrite decide_False.
  - rewrite filter_cons_True by done. simpl. by rewrite IH.
Qed.

Lemma subject_remove_absent (a : string) (s : SubjectInfo) :
  subject_get a s = None -> subject_remove a s = s.
Proof.
  unfold subject_remove. induction s as [|[c e] s IH]; [done|]. simpl.
  destruct (decide (c = a)) as [->|Hne]; [discriminate|].
  intros H. rewrite filter_cons_True by done. by rewrite IH.
Qed.

Lemma subject_remove_put_fresh (a : string) (e : SingleAddress) (s : SubjectInfo) :
  subject_get a s = None -> subject_remove a (subject_put a e s) = s.
Proof.
  unfold subject_remove. induction s as [|[c e'] s IH]; simpl.
  - intros _. rewrite filter_cons_False by (simpl; tauto). done.
  - destruct (decide (c = a)) as [->|Hne]; [discriminate|].
    intros H. rewrite filter_cons_True by done. by rewrite IH.
Qed.

Lemma subject_put_put (a : string) (e1 e2 : SingleAddress) (s : SubjectInfo) :
  subject_put a e2 (subject_put a e1 s) = subject_put a e2 s.
Proof.
  induction s as [|[c e'] s IH]; simpl.
  - by rewrite decide_True.
  - destruct (decide (c = a)) as [->|Hne]; simpl.
    + by rewrite decide_True.
    + rewrite decide_False by done. by rewrite IH.
Qed.

(** X3.  [forgetAddress(address)] always returns.  Afterwards the Address
    Store holds nothing under the address and every other entry of either
    store is as before; when it held nothing, the store is untouched.  A
    handle that [getAddress] gave for the address earlier is no longer
    valid and its [getMeta()] now fails; the address is available again
    unless the Account Store holds it. *)
Theorem forgetAddress_invalidates_handles (a : string) (st : St) :
  exists st',
    forgetAddress a st = inr (tt, st') /\
    subject_get a (addresses st') = None /\
    (forall b, b <> a -> subject_get b (addresses st') = subject_get b (addresses st)) /\
    accounts st' = accounts st /\
    (subject_get a (addresses st) = None -> addresses st' = addresses st) /\
    (forall arg h,
       addressOf arg = a -> getAddress arg TypeAddress = inr h ->
       isValid h st' = false /\ getMeta h st' = inl TypeError) /\
    (isAvailable (AddrString a) st' = true <-> subject_get a (accounts st) = None).
Proof.
  eexists. split; [reflexivity|]. simpl.
  split; [apply subject_get_remove_eq|].
  split; [intros b Hb; by apply subject_get_remove_ne|].
  split; [done|]. split; [|split].
  - intros Habs. by rewrite subject_remove_absent.
  - intros arg h Harg Hh. unfold getAddress in Hh.
    destruct (decodeAddress (addressOf arg)); [|discriminate].
    inversion Hh; subst. unfold isValid, getMeta. simpl.
    rewrite subject_get_remove_eq. split; [|done].
    apply bool_decide_eq_false. by intros [? ?].
  - rewrite isAvailable_true_iff. simpl. rewrite subject_get_remove_eq. tauto.
Qed.

(** X4.  For an address the Address Store does not hold, [saveRecent]
    followed by [forgetAddress] leaves both stores and the registry as
    they were: the entry is gone and every other entry is in its place. *)
Theorem saveRecent_forgetAddress_roundtrip (now : Z) (a : string) (st : St) :
  subject_get a (addresses st) = None ->
  exists e st1 st2,
    saveRecent now a st = inr (Some e, st1) /\
    forgetAddress a st1 = inr (tt, st2) /\
    addresses st2 = addresses st /\
    accounts st2 = accounts st /\
    keyring st2 = keyring st.
Proof.
  intros Habs. unfold saveRecent, forgetAddress, bind, gets, addresses_add, modify, ret.
  rewrite Habs. simpl. rewrite subject_get_add_eq.
  eexists _, _, _. split; [reflexivity|]. split; [reflexivity|]. simpl.
  unfold subject_add. by rewrite subject_remove_put_fresh.
Qed.

(** The state a [saveAddressMeta] leaves. *)
Lemma saveAddressMeta_run (now : Z) (a : string) (m : Meta) (st : St) :
  let base := match subject_get a (addresses st) with
              | Some e => json e
              | None => {| address := a; encoded := None;
                           meta := <["isRecent" := JUndefined]>
                                     (<["whenCreated" := JNumber now]> ∅) |}
              end in
  let j := {| address := address base; encoded := encoded base;
              meta := delete "isRecent" (assignAll m (meta base)) |} in
  saveAddressMeta now a m st =
  inr (tt, set_store (<[addressKey a := j]> (store st))
             (set_addresses (subject_add a j (addresses st)) st)).
Proof. reflexivity. Qed.

(** X5.  [saveAddressMeta] with the same metadata a second time, at any
    later time, changes nothing: the state after the second call is the
    state after the first. *)
Theorem saveAddressMeta_idempotent (now now' : Z) (a : string) (m : Meta) (st : St) :
  exists st1,
    saveAddressMeta now a m st = inr (tt, st1) /\
    saveAddressMeta now' a m st1 = inr (tt, st1).
Proof.
  assert (Hm : forall base : Meta,
            delete "isRecent" (assignAll m (delete "isRecent" (assignAll m base))) =
            delete "isRecent" (assignAll m base)).
  { intros base. apply map_eq. intros k.
    destruct (decide (k = "isRecent"%string)) as [->|Hk].
    - by rewrite !lookup_delete_eq.
    - do 2 rewrite lookup_delete_ne by done. rewrite !assignAll_lookup.
      destruct (m !! k) eqn:Hmk; [done|]. rewrite lookup_delete_ne by done.
      by rewrite assignAll_lookup, Hmk. }
  eexists. split; [apply saveAddressMeta_run|].
  rewrite saveAddressMeta_run. cbv zeta.
  cbn [addresses store globals set_store set_addresses].
  rewrite subject_get_add_eq. cbn [json address encoded meta]. rewrite Hm.
  unfold subject_add, set_store, set_addresses. cbn [addresses store globals accounts
    isDevelopment hasCalledInitOptions keyring].
  by rewrite subject_put_put, insert_insert_eq.
Qed.

(** X6.  Saving metadata for a recent address promotes it: the entry
    [saveRecent] created counts as recent, the entry [saveAddressMeta]
    leaves in its place does not, and it keeps the [whenCreated] of the
    first call unless the supplied metadata has one. *)
Theorem saveAddressMeta_promotes_recent (now now' : Z) (a : string) (m : Meta) (st : St) :
  subject_get a (addresses st) = None ->
  exists e1 st1 e2 st2,
    saveRecent now a st = inr (Some e1, st1) /\
    saveAddressMeta now' a m st1 = inr (tt, st2) /\
    subject_get a (addresses st2) = Some e2 /\
    entryIsRecent e1 = true /\
    entryIsRecent e2 = false /\
    address (json e2) = a /\
    (m !! "whenCreated" = None ->
     getProp (meta (json e2)) "whenCreated" = JNumber now) /\
    subject_keys (addresses st2) = subject_keys (addresses st1).
Proof.
  intros Habs.
  unfold saveRecent, saveAddressMeta, bind, gets, addresses_add, store_set, modify, ret.
  rewrite Habs. simpl. rewrite !subject_get_add_eq. simpl.
  eexists _, _, _, _. split; [reflexivity|]. split; [reflexivity|]. simpl.
  rewrite subject_get_add_eq. split; [reflexivity|]. simpl.
  split; [reflexivity|].
  rewrite !subject_get_add_eq. simpl.
  split.
  { unfold entryIsRecent, getProp. simpl. by rewrite lookup_delete_eq. }
  split; [done|]. split.
  - intros Hm. unfold getProp. rewrite lookup_delete_ne by done.
    rewrite assignAll_lookup, Hm. rewrite lookup_insert_ne by done.
    by rewrite lookup_insert_eq.
  - unfold subject_add, subject_keys.
    generalize (addresses st). intros s.
    induction s as [|[c e'] s IH]; simpl.
    + by rewrite decide_True.
    + destruct (decide (c = a)) as [->|Hne]; simpl.
      * by rewrite decide_True.
      * rewrite decide_False by done. simpl. by f_equal.
Qed.

End Contacts.

(** ** Backing up, encrypting, creating and restoring accounts *)

Section AccountsMore.
Context `{L : Lib} {X : LibMore L}.

Lemma encryptAccount_inv (now : Z) (p : Pair) (password : string) (st : St)
    (p' : Pair) (st' : St) :
  encryptAccount now p password st = inr (p', st') ->
  let j := pair_toJson (Some password) p in
  let j' := setJsonMeta (<["whenEdited" := JNumber now]> (meta j)) j in
  exists q r,
    reg_addFromJson j' (keyring st) = Some (q, r) /\
    st' = set_store (<[accountKey (address j') := j']> (store st))
            (set_accounts (subject_add (address j') j' (accounts st)) (set_keyring r st)) /\
    p' = pair_writeMeta (meta j') p.
Proof.
  unfold encryptAccount, keyring_addFromJson, bind, gets, orThrow, accounts_add, store_set,
    modify, ret, throw.
  simpl. intros H.
  destruct (reg_addFromJson _ (keyring st)) as [[q r]|] eqn:Hreg; simpl in H; [|done].
  inversion H; subst. by exists q, r.
Qed.

(** X8.  [encryptAccount] leaves an Account Store entry for the pair
    that carries the export under the new password, [whenEdited] at the
    time of the call, and every other metadata field as the pair has it:
    it never adds a [whenCreated].  After a [saveAccount], it keeps the
    [whenCreated] that call left. *)
Theorem encryptAccount_stamps_whenEdited {laws : PairLaws L}
    (now : Z) (p : Pair) (password : string) (st : St) (p' : Pair) (st' : St) :
  encryptAccount now p password st = inr (p', st') ->
  (exists e,
     subject_get (pair_address p) (accounts st') = Some e /\
     encoded (json e) = encoded (pair_toJson (Some password) p) /\
     getProp (meta (json e)) "whenEdited" = JNumber now /\
     (forall k, k <> "whenEdited"%string -> meta (json e) !! k = pair_getMeta p !! k) /\
     pair_getMeta p' = meta (json e)) /\
  addresses st' = addresses st /\
  (forall now0 p0 pw0 st0 e0,
     now0 <> 0 ->
     saveAccount now0 p0 pw0 st0 = inr (p, st) ->
     subject_get (pair_address p) (accounts st) = Some e0 ->
     exists e,
       subject_get (pair_address p) (accounts st') = Some e /\
       getProp (meta (json e)) "whenCreated" = getProp (meta (json e0)) "whenCreated" /\
       truthy (getProp (meta (json e)) "whenCreated") = true).
Proof.
  intros H. apply encryptAccount_inv in H as (q & r & _ & -> & ->). simpl.
  rewrite toJson_address, subject_get_add_eq.
  split; [|split; [done|]].
  - eexists. split; [reflexivity|]. simpl. split; [done|].
    split; [unfold getProp; by rewrite lookup_insert_eq|].
    split; [|by rewrite getMeta_writeMeta].
    intros k Hk. rewrite lookup_insert_ne by done. by rewrite toJson_meta.
  - intros now0 p0 pw0 st0 e0 Hnow Hsave He0.
    apply saveAccount_inv in Hsave as (q0 & r0 & _ & Hst & Hp).
    eexists. split; [reflexivity|]. simpl.
    unfold getProp at 1 3. rewrite lookup_insert_ne by done. rewrite toJson_meta.
    assert (Hmeta : pair_getMeta p = meta (stampWhenCreated now0 (pair_toJson pw0 p0))).
    { rewrite Hp. destruct (truthy (getProp (meta (pair_toJson pw0 p0)) "whenCreated")) eqn:Ht.
      - rewrite stampWhenCreated_id by done. by rewrite toJson_meta.
      - apply getMeta_writeMeta. }
    assert (Haddr : pair_address p = address (stampWhenCreated now0 (pair_toJson pw0 p0))).
    { rewrite stampWhenCreated_address, toJson_address, Hp.
      destruct (truthy _); [done|by rewrite address_writeMeta]. }
    rewrite Hst in He0. simpl in He0. rewrite Haddr, subject_get_add_eq in He0.
    inversion He0; subst e0. simpl. rewrite Hmeta.
    split; [done|]. by apply stampWhenCreated_truthy.
Qed.

End AccountsMore.

Section AccountLifecycle.
Context `{L : Lib} {X : LibMore L}.

Lemma saveAccountMeta_run (p : Pair) (m : Meta) (st : St) (j : KeyringJson) :
  is_Some (decodeAddress (pair_address p)) ->
  store st !! accountKey (pair_address p) = Some j ->
  let j' := setJsonMeta (pair_getMeta (pair_setMeta m p)) j in
  saveAccountMeta p m st =
  inr (pair_setMeta m p,
       set_store (<[accountKey (address j) := j']> (store st))
         (set_accounts (subject_add (address j) j' (accounts st)) st)).
Proof.
  intros [pk Hpk] Hj.
  unfold saveAccountMeta, accountKeyOf, accounts_add, store_set, bind, orThrow, gets,
    modify, ret, throw.
  rewrite Hpk. simpl. rewrite Hj. reflexivity.
Qed.

Lemma saveAccountMeta_missing (p : Pair) (m : Meta) (st : St) :
  is_Some (decodeAddress (pair_address p)) ->
  store st !! accountKey (pair_address p) = None ->
  saveAccountMeta p m st = inl TypeError.
Proof.
  intros [pk Hpk] Hj.
  unfold saveAccountMeta, accountKeyOf, bind, orThrow, gets, ret, throw.
  rewrite Hpk. simpl. rewrite Hj. reflexivity.
Qed.

(** X9.  [saveAccountMeta] works on the record that [saveAccount]
    persisted.  After a [saveAccount] of a pair, a [saveAccountMeta] on
    the pair returns, and the Account Store entry of the pair's address
    then has that address, the encoded material of the save and the
    pair's metadata after [setMeta]; the same record is persisted under
    the account key, and no other account entry and nothing of the
    Address Store changes.  On a pair with no persisted record it throws
    a TypeError.  (The pair's address decodes.) *)
Theorem saveAccountMeta_uses_persisted_record {laws : PairLaws L}
    (now : Z) (p : Pair) (pw : option string) (m : Meta) (st : St) (p1 : Pair) (st1 : St) :
  is_Some (decodeAddress (pair_address p)) ->
  saveAccount now p pw st = inr (p1, st1) ->
  (exists st2 e,
     saveAccountMeta p1 m st1 = inr (pair_setMeta m p1, st2) /\
     subject_get (pair_address p) (accounts st2) = Some e /\
     address (json e) = pair_address p /\
     encoded (json e) = encoded (pair_toJson pw p) /\
     meta (json e) = pair_getMeta (pair_setMeta m p1) /\
     store st2 !! accountKey (pair_address p) = Some (json e) /\
     (forall b, b <> pair_address p ->
        subject_get b (accounts st2) = subject_get b (accounts st1)) /\
     addresses st2 = addresses st1) /\
  (store st !! accountKey (pair_address p) = None ->
   saveAccountMeta p m st = inl TypeError).
Proof.
  intros Hdec Hsave. split; [|by apply saveAccountMeta_missing].
  apply saveAccount_inv in Hsave as (q & r & _ & -> & ->).
  set (j := stampWhenCreated now (pair_toJson pw p)).
  set (p1 := if truthy (getProp (meta (pair_toJson pw p)) "whenCreated") then p
             else pair_writeMeta (meta j) p).
  assert (Haddr : address j = pair_address p).
  { subst j. by rewrite stampWhenCreated_address, toJson_address. }
  assert (Hp1 : pair_address p1 = pair_address p).
  { subst p1. destruct (truthy _); [done|apply address_writeMeta]. }
  rewrite Haddr.
  eexists _, _. split.
  { apply saveAccountMeta_run; rewrite Hp1; [done|]. cbn [store globals set_store].
    apply lookup_insert_eq. }
  cbn [accounts store globals set_store set_accounts addresses]. rewrite Haddr.
  split; [apply subject_get_add_eq|]. cbn [json address encoded meta setJsonMeta].
  split; [done|]. split.
  { subst j. unfold stampWhenCreated. by destruct (truthy _). }
  split; [done|]. split; [apply lookup_insert_eq|]. split; [|done].
  intros b Hb. unfold subject_add. by rewrite subject_get_put_ne.
Qed.

Lemma saveAccount_stores {laws : PairLaws L} (now : Z) (p : Pair) (pw : option string)
    (st : St) (p' : Pair) (st' : St) :
  now <> 0 ->
  saveAccount now p pw st = inr (p', st') ->
  pair_address p' = pair_address p /\
  isAvailable (AddrString (pair_address p)) st' = false /\
  exists e,
    subject_get (pair_address p) (accounts st') = Some e /\
    truthy (getProp (meta (json e)) "whenCreated") = true /\
    (forall k, k <> "whenCreated"%string -> meta (json e) !! k = pair_getMeta p !! k).
Proof.
  intros Hnow H. apply saveAccount_inv in H as (q & r & _ & -> & ->).
  assert (Hget : subject_get (pair_address p)
                   (accounts (set_accounts
                      (subject_add (address (stampWhenCreated now (pair_toJson pw p)))
                         (stampWhenCreated now (pair_toJson pw p)) (accounts st))
                      (set_keyring r st))) =
                 Some {| json := stampWhenCreated now (pair_toJson pw p);
                         option_ := createOptionItem
                                      (address (stampWhenCreated now (pair_toJson pw p)))
                                      (stampWhenCreated now (pair_toJson pw p)) |}).
  { simpl. rewrite stampWhenCreated_address, toJson_address. apply subject_get_add_eq. }
  split; [destruct (truthy _); [done|apply address_writeMeta]|].
  split; [by eapply isAvailable_false_account|].
  eexists. split; [exact Hget|]. simpl.
  split; [by apply stampWhenCreated_truthy|].
  intros k Hk. unfold stampWhenCreated.
  destruct (truthy _); simpl; [by rewrite toJson_meta|].
  rewrite lookup_insert_ne by done. by rewrite toJson_meta.
Qed.

(** X10.  [createAccount] and [createAccountMnemonic] fail with the
    registry's own error when the seed or the phrase is refused, and
    nothing is saved.  When they return, the pair is the one the registry
    derived, its address is no longer available, and the Account Store
    holds an entry for it whose [whenCreated] is set and whose other
    metadata is the pair's. *)
Theorem createAccount_saves_derived_pair {laws : PairLaws L}
    (now : Z) (password : option string) (m : option Meta) (st : St) :
  now <> 0 ->
  (forall seed,
     match reg_addFromSeed seed (default ∅ m) (keyring st) with
     | inl e => createAccount now seed password m st = inl e
     | inr (p, reg) =>
         forall p' st',
           createAccount now seed password m st = inr (p', st') ->
           pair_address p' = pair_address p /\
           isAvailable (AddrString (pair_address p)) st' = false /\
           exists e,
             subject_get (pair_address p) (accounts st') = Some e /\
             truthy (getProp (meta (json e)) "whenCreated") = true /\
             (forall k, k <> "whenCreated"%string ->
                meta (json e) !! k = pair_getMeta p !! k)
     end) /\
  (forall phrase,
     match reg_addFromMnemonic phrase (default ∅ m) (keyring st) with
     | inl e => createAccountMnemonic now phrase password m st = inl e
     | inr (p, reg) =>
         forall p' st',
           createAccountMnemonic now phrase password m st = inr (p', st') ->
           pair_address p' = pair_address p /\
           isAvailable (AddrString (pair_address p)) st' = false /\
           exists e,
             subject_get (pair_address p) (accounts st') = Some e /\
             truthy (getProp (meta (json e)) "whenCreated") = true /\
             (forall k, k <> "whenCreated"%string ->
                meta (json e) !! k = pair_getMeta p !! k)
     end).
Proof.
  intros Hnow. split.
  - intros seed. unfold createAccount, bind, gets, throw, modify. simpl.
    destruct (reg_addFromSeed seed (default ∅ m) (keyring st)) as [e|[p reg]]; [done|].
    simpl. intros p' st' H. by eapply saveAccount_stores.
  - intros phrase. unfold createAccountMnemonic, bind, gets, throw, modify. simpl.
    destruct (reg_addFromMnemonic phrase (default ∅ m) (keyring st)) as [e|[p reg]]; [done|].
    simpl. intros p' st' H. by eapply saveAccount_stores.
Qed.

(** X11.  [restoreAccount] checks the address before the password: an
    export whose address does not decode fails with the decoder's error
    whatever the password, and one whose encoded material the password
    does not open fails with WrongPassword.  When it returns, the pair it
    returns is locked, the address is no longer available, and the
    Account Store holds the export under its address, with [whenCreated]
    set to the time of the call if the export had none. *)
Theorem restoreAccount_checks_then_persists {laws : LockLaws L}
    (now : Z) (a enc : string) (m : Meta) (password : string) (st : St) :
  now <> 0 ->
  match decodeAddress a with
  | None => restoreAccount now a enc m password st = inl InvalidAddress
  | Some publicKey =>
      match pair_decodePkcs8 password (createPair publicKey m (hexToU8a enc)) with
      | None => restoreAccount now a enc m password st = inl WrongPassword
      | Some unlocked =>
          forall p' st',
            restoreAccount now a enc m password st = inr (p', st') ->
            p' = pair_lock unlocked /\
            pair_isLocked p' = true /\
            isAvailable (AddrString a) st' = false /\
            exists e,
              subject_get a (accounts st') = Some e /\
              address (json e) = a /\
              encoded (json e) = Some enc /\
              getProp (meta (json e)) "whenCreated" =
                (if truthy (getProp m "whenCreated") then getProp m "whenCreated"
                 else JNumber now) /\
              (forall k, k <> "whenCreated"%string -> meta (json e) !! k = m !! k)
      end
  end.
Proof.
  intros Hnow.
  unfold restoreAccount, addPair, keyring_addFromJson, bind, gets, orThrow, accounts_add,
    modify, ret, throw.
  destruct (decodeAddress a) as [pk|]; [|done]. simpl.
  destruct (pair_decodePkcs8 password (createPair pk m (hexToU8a enc))) as [u|]; [|done].
  simpl. intros p' st' H.
  destruct (reg_addFromJson _ _) as [[q r]|]; simpl in H; [|discriminate].
  inversion H; subst. clear H.
  rewrite stampWhenCreated_address. simpl.
  split; [done|]. split; [apply isLocked_lock|].
  split.
  { eapply isAvailable_false_account. simpl. apply subject_get_add_eq. }
  rewrite subject_get_add_eq. eexists. split; [reflexivity|]. simpl.
  rewrite stampWhenCreated_address. simpl. split; [done|].
  unfold stampWhenCreated. simpl.
  destruct (truthy (getProp m "whenCreated")) eqn:Ht; simpl.
  - repeat split; done.
  - split; [done|]. split; [unfold getProp; by rewrite lookup_insert_eq|].
    intros k Hk. by rewrite lookup_insert_ne.
Qed.

(** X12.  [forgetAccount] always returns.  Afterwards the Account Store
    holds nothing under the address, every other entry of either store is
    as before, the registry is the one [removePair] leaves, and
    [getAccounts()] returns no handle for the address. *)
Theorem forgetAccount_removes_entry (a : string) (st : St) :
  exists st',
    forgetAccount a st = inr (tt, st') /\
    subject_get a (accounts st') = None /\
    (forall b, b <> a -> subject_get b (accounts st') = subject_get b (accounts st)) /\
    addresses st' = addresses st /\
    keyring st' = reg_removePair a (keyring st) /\
    (isAvailable (AddrString a) st' = true <-> subject_get a (addresses st) = None) /\
    (forall hs, getAccounts st' = inr hs -> forall h, h ∈ hs -> captured_address h <> a).
Proof.
  eexists. split; [reflexivity|]. simpl.
  split; [apply subject_get_remove_eq|].
  split; [intros b Hb; by apply subject_get_remove_ne|].
  split; [done|]. split; [done|]. split.
  - rewrite isAvailable_true_iff. simpl. rewrite subject_get_remove_eq. tauto.
  - intros hs Hhs h Hh Heq. unfold getAccounts in Hhs. simpl in Hhs.
    destruct (mapR _ (subject_keys (subject_remove a (accounts st)))) as [e|hs0] eqn:Hm;
      [discriminate|].
    apply (filterR_elem _ _ _ Hhs) in Hh as [Hin _].
    destruct (mapR_getAddress_inr _ _ _ Hm) as [Hk _].
    assert (Hkey : a ∈ subject_keys (subject_remove a (accounts st))).
    { rewrite <- Hk, <- Heq. apply list_elem_of_fmap. by exists h. }
    apply subject_get_key in Hkey as [e He].
    rewrite subject_get_remove_eq in He. discriminate.
Qed.

End AccountLifecycle.

(** ** Bootstrapping *)

Section Bootstrap.
Context `{L : Lib}.

Lemma addPairs_lookup (l : list Pair) (s : SubjectInfo) :
  let s' := foldl (fun s p =>
                     subject_add (pair_address p)
                       {| address := pair_address p; encoded := None;
                          meta := pair_getMeta p |} s) s l in
  (forall p, p ∈ l ->
     exists q, q ∈ l /\ pair_address q = pair_address p /\
       subject_get (pair_address p) s' =
       Some {| json := {| address := pair_address p; encoded := None;
                          meta := pair_getMeta q |};
               option_ := createOptionItem (pair_address p)
                            {| address := pair_address p; encoded := None;
                               meta := pair_getMeta q |} |}) /\
  (forall a, (forall p, p ∈ l -> pair_address p <> a) ->
     subject_get a s' = subject_get a s).
Proof.
  induction l as [|x l IH] using rev_ind; simpl.
  - split; [by intros p ?%elem_of_nil|done].
  - rewrite foldl_app. simpl. destruct IH as [IH1 IH2]. split.
    + intros p Hp. destruct (decide (pair_address x = pair_address p)) as [Heq|Hne].
      * exists x. split; [apply elem_of_app; right; by apply list_elem_of_singleton|].
        split; [done|]. rewrite <- Heq. apply subject_get_add_eq.
      * apply elem_of_app in Hp as [Hp|Hp].
        -- destruct (IH1 p Hp) as (q & Hq & Hqa & Hget).
           exists q. split; [apply elem_of_app; by left|]. split; [done|].
           unfold subject_add. by rewrite subject_get_put_ne.
        -- apply list_elem_of_singleton in Hp. by subst.
    + intros a Ha. unfold subject_add.
      rewrite subject_get_put_ne.
      * apply IH2. intros p Hp. apply Ha. apply elem_of_app. by left.
      * apply Ha. apply elem_of_app. right. by apply list_elem_of_singleton.
Qed.

(** X13.  [addPairs()] always returns, and leaves the Address Store and
    the registry alone.  Afterwards every pair of the registry has an
    entry under its address that carries the metadata of a registry pair
    with that address and no encoded material, whatever the store held
    there before; an address that no registry pair has keeps its entry. *)
Theorem addPairs_mirrors_registry (st : St) :
  exists st',
    addPairs st = inr (tt, st') /\
    addresses st' = addresses st /\
    keyring st' = keyring st /\
    (forall p, p ∈ reg_getPairs (keyring st) ->
       isAvailable (AddrString (pair_address p)) st' = false /\
       exists q e,
         q ∈ reg_getPairs (keyring st) /\ pair_address q = pair_address p /\
         subject_get (pair_address p) (accounts st') = Some e /\
         address (json e) = pair_address p /\
         encoded (json e) = None /\
         meta (json e) = pair_getMeta q) /\
    (forall a, (forall p, p ∈ reg_getPairs (keyring st) -> pair_address p <> a) ->
       subject_get a (accounts st') = subject_get a (accounts st)).
Proof.
  destruct (addPairs_run st) as (st' & Hrun & Hacc & _ & Haddr & Hkr).
  exists st'. split; [done|]. split; [done|]. split; [done|].
  destruct (addPairs_lookup (reg_getPairs (keyring st)) (accounts st)) as [H1 H2].
  rewrite Hacc. split; [|exact H2].
  intros p Hp. destruct (H1 p Hp) as (q & Hq & Hqa & Hget).
  split; [eapply isAvailable_false_account; simpl; rewrite Hacc; exact Hget|].
  eexists q, _. split; [done|]. split; [done|]. split; [exact Hget|]. done.
Qed.

Lemma forEach_fails {A} (f : A -> M unit) (l : list A) (x : A) :
  x ∈ l -> (forall st0, exists e, f x st0 = inl e) ->
  forall st, exists e, forEach f l st = inl e.
Proof.
  intros Hin Hx. induction l as [|y l IH]; intros st; simpl.
  - by apply elem_of_nil in Hin.
  - unfold bind. destruct (f y st) as [e|[u st1]] eqn:Hy; [by exists e|].
    apply elem_of_cons in Hin as [->|Hin].
    + destruct (Hx st) as [e He]. congruence.
    + by apply IH.
Qed.

Lemma bind_fails_after {A B} (m : M A) (k : A -> M B) (st : St) :
  (forall x st1, exists e, k x st1 = inl e) -> exists e, bind m k st = inl e.
Proof.
  intros Hk. unfold bind. destruct (m st) as [e|[x st1]]; [by exists e|apply Hk].
Qed.

(** A visit to a prefixed key whose address segment neither starts with
    [0x] nor decodes throws: at the latest when the canonical key is
    built. *)
Lemma loadRecord_undecodable_key (j : KeyringJson) (k h : string) (st : St) :
  isPrefixed k = true -> hexAddrOf k = Some h -> startsWith0x h = false ->
  decodeAddress h = None ->
  exists e, loadRecord j k st = inl e.
Proof.
  intros Hpre Hh H0 Hd. unfold loadRecord. rewrite Hh, H0. simpl.
  destruct (accountRegex k) eqn:Hacc.
  - apply bind_fails_after. intros u1 st1.
    unfold accountKeyOf, store_remove, orThrow, modify, bind, throw. simpl.
    rewrite Hd. by eexists.
  - unfold isPrefixed in Hpre. rewrite Hacc in Hpre. simpl in Hpre. rewrite Hpre.
    apply bind_fails_after. intros u8a st1.
    apply bind_fails_after. intros a st2.
    apply bind_fails_after. intros u3 st3.
    unfold addressKeyOf, store_remove, orThrow, modify, bind, throw. simpl.
    rewrite Hd. by eexists.
Qed.

(** X14.  [loadAll()] does not isolate its records: it throws, and loads
    nothing further, when a record that is still persisted once the
    registry's pairs are stored is one the visitor cannot take.  That is
    an address record whose address is neither hex nor decodable, or is
    hex of a length [encodeAddress] refuses; an account record that is
    loaded and whose encoded material the registry refuses; a prefixed
    key whose address segment neither starts with [0x] nor decodes. *)
Theorem loadAll_aborts_on_a_malformed_record (st : St) (k : string) (j : KeyringJson) :
  store st !! k = Some j ->
  (forall p, p ∈ reg_getPairs (keyring st) -> accountKey (pair_address p) <> k) ->
  (isAddressRecord k = true /\ normalizedBytes j = None) \/
  (isAddressRecord k = true /\
   exists u8a, normalizedBytes j = Some u8a /\ encodable u8a = false) \/
  (accountRegex k = true /\
   negb (truthy (getProp (meta j) "isTesting")) && hasEncoded j = true /\
   forall r, reg_addFromJson j r = None) \/
  (isPrefixed k = true /\
   exists h, hexAddrOf k = Some h /\ startsWith0x h = false /\ decodeAddress h = None) ->
  exists e, loadAll st = inl e.
Proof.
  intros Hk Hpairs Hbad.
  assert (Hfail : forall st0, exists e, loadRecord j k st0 = inl e).
  { intros st0.
    destruct Hbad as [[Hrec Hn]|[(Hrec & u8a & Hn & Henc)|[(Hacc & Hload & Hreg)|
                      (Hpre & h & Hh & H0 & Hd)]]].
    - unfold isAddressRecord in Hrec. apply andb_true_iff in Hrec as [Hacc Haddr].
      apply negb_true_iff in Hacc. unfold normalizedBytes in Hn.
      unfold loadRecord. rewrite Hacc, Haddr. unfold bind at 1.
      destruct (isHex (address j)); [discriminate|]. rewrite Hn. by eexists.
    - unfold isAddressRecord in Hrec. apply andb_true_iff in Hrec as [Hacc Haddr].
      apply negb_true_iff in Hacc. unfold normalizedBytes in Hn.
      unfold loadRecord. rewrite Hacc, Haddr. unfold bind at 1.
      assert (Hb : (if isHex (address j) then ret (hexToU8a (address j))
                    else orThrow InvalidAddress (decodeAddress (address j))) st0
                   = inr (u8a, st0)).
      { destruct (isHex (address j)); [by inversion Hn|]. by rewrite Hn. }
      rewrite Hb. unfold bind at 1, encodeAddressOf. rewrite Henc. by eexists.
    - unfold loadRecord. rewrite Hacc, Hload. unfold bind at 1 2.
      unfold keyring_addFromJson, gets, orThrow, throw, bind. simpl. rewrite Hreg.
      by eexists.
    - by apply (loadRecord_undecodable_key j k h). }
  destruct (addPairs_run st) as (st1 & Hrun & _ & Hs1 & _).
  destruct (addPairs_store_lookup (reg_getPairs (keyring st)) (store st)) as [Hkeep _].
  rewrite <- Hs1 in Hkeep.
  assert (Hin : (k, j) ∈ map_to_list (store st1)).
  { apply elem_of_map_to_list. by rewrite Hkeep. }
  destruct (forEach_fails (fun kj => loadRecord kj.2 kj.1) _ (k, j) Hin Hfail st1) as [e He].
  exists e. unfold loadAll, bind. rewrite Hrun. unfold store_each. by rewrite He.
Qed.

Lemma loadRecord_addresses (j : KeyringJson) (k : string) (st : St) (u : unit) (st1 : St) :
  loadRecord j k st = inr (u, st1) ->
  if isAddressRecord k then
    exists u8a, normalizedBytes j = Some u8a /\
      addresses st1 = subject_add (encodeAddress u8a) j (addresses st)
  else addresses st1 = addresses st.
Proof.
  unfold loadRecord, isAddressRecord, normalizedBytes.
  destruct (accountRegex k) eqn:Hacc; simpl.
  - intros H. apply bind_inr in H as (u1 & st0 & H1 & H2).
    assert (Hst0 : addresses st0 = addresses st).
    { destruct (negb (truthy (getProp (meta j) "isTesting")) && hasEncoded j).
      - apply bind_inr in H1 as (p & st00 & Hp & Hadd).
        apply keyring_addFromJson_inv in Hp as (r & _ & ->).
        by apply accounts_add_inv in Hadd as (_ & _ & -> & _).
      - inversion H1. done. }
    destruct (hexAddrOf k) as [h|]; [|discriminate].
    destruct (negb (startsWith0x h)).
    + apply rewrite_account_key_inv in H2 as (_ & _ & _ & -> & _). done.
    + inversion H2; subst. done.
  - destruct (addressRegex k) eqn:Haddr; simpl.
    + intros H. apply bind_inr in H as (u8a & st0 & H1 & H2).
      assert (Hb : (if isHex (address j) then Some (hexToU8a (address j))
                    else decodeAddress (address j)) = Some u8a /\ st0 = st).
      { destruct (isHex (address j)); [by inversion H1|].
        destruct (decodeAddress (address j)); by inversion H1. }
      destruct Hb as [Hb ->]. exists u8a. split; [done|].
      apply bind_inr in H2 as (a & st0 & Ha & H2).
      assert (Ha' : a = encodeAddress u8a /\ st0 = st).
      { unfold encodeAddressOf in Ha. destruct (encodable u8a); by inversion Ha. }
      destruct Ha' as [-> ->].
      apply bind_inr in H2 as (u2 & st2 & Hadd & H3).
      apply addresses_add_inv in Hadd as (Hadd & _).
      destruct (hexAddrOf k) as [h|]; [|discriminate].
      destruct (negb (startsWith0x h)).
      * apply rewrite_address_key_inv in H3 as (_ & _ & _ & -> & _). done.
      * inversion H3; subst. done.
    + intros H. inversion H. done.
Qed.

Lemma forEach_loadRecord_addresses (l : list (string * KeyringJson)) (st : St)
    (u : unit) (st' : St) :
  forEach (fun kj => loadRecord kj.2 kj.1) l st = inr (u, st') ->
  (forall a,
     subject_get a (addresses st') = subject_get a (addresses st) \/
     exists k j u8a,
       (k, j) ∈ l /\ isAddressRecord k = true /\ normalizedBytes j = Some u8a /\
       encodeAddress u8a = a /\
       subject_get a (addresses st') =
         Some {| json := j; option_ := createOptionItem a j |}) /\
  (forall k j, (k, j) ∈ l -> isAddressRecord k = true ->
     exists u8a k' j' u8a',
       normalizedBytes j = Some u8a /\
       (k', j') ∈ l /\ isAddressRecord k' = true /\ normalizedBytes j' = Some u8a' /\
       encodeAddress u8a' = encodeAddress u8a /\
       subject_get (encodeAddress u8a) (addresses st') =
         Some {| json := j'; option_ := createOptionItem (encodeAddress u8a) j' |}).
Proof.
  revert st. induction l as [|[k0 j0] l IH]; intros st H; simpl in H.
  - inversion H; subst. split; [by left|]. by intros k j ?%elem_of_nil.
  - apply bind_inr in H as (u1 & st1 & Hx & Hrest).
    destruct (IH st1 Hrest) as [IHa IHb].
    apply loadRecord_addresses in Hx. simpl in Hx.
    assert (Hall : forall a,
              subject_get a (addresses st') = subject_get a (addresses st) \/
              exists k j u8a,
                (k, j) ∈ (k0, j0) :: l /\ isAddressRecord k = true /\
                normalizedBytes j = Some u8a /\ encodeAddress u8a = a /\
                subject_get a (addresses st') =
                  Some {| json := j; option_ := createOptionItem a j |}).
    { intros a. destruct (IHa a) as [Hsame|(k & j & b & Hin & Hrec & Hb & Ha & Hget)].
      - destruct (isAddressRecord k0) eqn:Hk0.
        + destruct Hx as (b0 & Hb0 & Hst1).
          destruct (decide (encodeAddress b0 = a)) as [Heq|Hne].
          * right. exists k0, j0, b0. split; [left|]. split; [done|]. split; [done|].
            split; [done|]. rewrite Hsame, Hst1, <- Heq. apply subject_get_add_eq.
          * left. rewrite Hsame, Hst1. unfold subject_add. by rewrite subject_get_put_ne.
        + left. by rewrite Hsame, Hx.
      - right. exists k, j, b. split; [by right|]. done. }
    split; [exact Hall|].
    intros k j Hin Hrec. apply elem_of_cons in Hin as [Heq|Hin].
    + inversion Heq; subst k0 j0. rewrite Hrec in Hx. destruct Hx as (b0 & Hb0 & Hst1).
      exists b0. destruct (IHa (encodeAddress b0))
        as [Hsame|(k' & j' & b' & Hin' & Hrec' & Hb' & Ha' & Hget')].
      * exists k, j, b0. split; [done|]. split; [left|]. split; [done|]. split; [done|].
        split; [done|]. rewrite Hsame, Hst1. apply subject_get_add_eq.
      * exists k', j', b'. split; [done|]. split; [by right|]. done.
    + destruct (IHb k j Hin Hrec) as (b & k' & j' & b' & Hb & Hin' & Hrec' & Hb' & He & Hget).
      exists b, k', j', b'. split; [done|]. split; [by right|]. done.
Qed.

(** X15.  When [loadAll()] returns, every address record of the
    Persistent Store has been loaded: its address was hex or decodable,
    the encoded form of that address is no longer available, and the
    Address Store holds under it an address record of the Persistent
    Store with the same encoded address, the record itself unless a
    record visited later shares it. *)
Theorem loadAll_loads_address_records (st : St) (u : unit) (st' : St) :
  loadAll st = inr (u, st') ->
  forall k j,
    store st !! k = Some j -> isAddressRecord k = true ->
    exists u8a k' j' u8a',
      normalizedBytes j = Some u8a /\
      store st !! k' = Some j' /\ isAddressRecord k' = true /\
      normalizedBytes j' = Some u8a' /\
      encodeAddress u8a' = encodeAddress u8a /\
      subject_get (encodeAddress u8a) (addresses st') =
        Some {| json := j'; option_ := createOptionItem (encodeAddress u8a) j' |} /\
      isAvailable (AddrBytes u8a) st' = false.
Proof.
  intros H k j Hk Hrec.
  apply loadAll_inv in H as (st1 & st2 & Hpairs & H2 & _ & _ & Haddr & _).
  destruct (addPairs_run st) as (st1' & Hrun & _ & Hs1 & _).
  rewrite Hrun in Hpairs. inversion Hpairs; subst st1'. clear Hpairs Hrun.
  destruct (addPairs_store_lookup (reg_getPairs (keyring st)) (store st)) as [Hkeep _].
  rewrite <- Hs1 in Hkeep.
  assert (Hsame : forall k0, isAddressRecord k0 = true -> store st1 !! k0 = store st !! k0).
  { intros k0 Hk0. apply Hkeep. intros p _ Heq.
    unfold isAddressRecord in Hk0. by rewrite <- Heq, accountKey_account in Hk0. }
  destruct (forEach_loadRecord_addresses _ _ _ _ H2) as [_ Hb].
  destruct (Hb k j ltac:(apply elem_of_map_to_list; by rewrite Hsame) Hrec)
    as (b & k' & j' & b' & Hnb & Hin' & Hrec' & Hb' & He & Hget).
  apply elem_of_map_to_list in Hin'. rewrite Hsame in Hin' by done.
  exists b, k', j', b'. rewrite Haddr.
  repeat (split; [done|]).
  eapply isAvailable_false_address. simpl. rewrite Haddr. exact Hget.
Qed.

(** A visit to a key that is not legacy removes no persisted key. *)
Lemma loadRecord_keeps_keys (j0 : KeyringJson) (k0 : string) (st : St) (u : unit) (st1 : St)
    (k : string) :
  loadRecord j0 k0 st = inr (u, st1) -> isLegacy k0 = false ->
  is_Some (store st !! k) -> is_Some (store st1 !! k).
Proof.
  intros H Hk0 Hk. apply loadRecord_store in H as (up & _ & ->).
  unfold migrateOne. simpl. rewrite Hk0.
  destruct up as [c|]; [|done]. apply lookup_insert_is_Some.
  destruct (decide (c = k)); [by left|by right].
Qed.

Lemma forEach_loadRecord_keeps_keys (l : list (string * KeyringJson)) (st : St) (u : unit)
    (st' : St) (k : string) :
  forEach (fun kj => loadRecord kj.2 kj.1) l st = inr (u, st') ->
  (forall kj, kj ∈ l -> isLegacy kj.1 = false) ->
  is_Some (store st !! k) -> is_Some (store st' !! k).
Proof.
  revert st. induction l as [|[k0 j0] l IH]; intros st H Hl Hk.
  - by inversion H; subst.
  - simpl in H. apply bind_inr in H as (u1 & st1 & H1 & H2).
    apply (IH st1 H2).
    + intros kj Hin. apply Hl. by right.
    + eapply loadRecord_keeps_keys; [exact H1| |exact Hk]. apply (Hl (k0, j0)). left.
Qed.

(** X16.  The migration is one-time: once a [loadAll()] has returned, a
    later [loadAll()] over the persisted records it left (the next
    session's, whatever the stores and the registry hold then) finds no
    key to rewrite, and every key that was persisted is still persisted
    when it returns.  (The hex form of an address starts with [0x].) *)
Theorem loadAll_migration_is_one_time (st : St) (u : unit) (st1 : St) :
  (forall a, startsWith0x (toHex a) = true) ->
  loadAll st = inr (u, st1) ->
  forall (st2 : St) (u' : unit) (st3 : St),
    store st2 = store st1 ->
    loadAll st2 = inr (u', st3) ->
    (forall k j, store st2 !! k = Some j -> isLegacy k = false) /\
    (forall k, is_Some (store st1 !! k) -> is_Some (store st3 !! k)).
Proof.
  intros Hhex H1 st2 u' st3 Heq H2.
  assert (Hclean : forall k j, store st2 !! k = Some j -> isLegacy k = false).
  { intros k j Hk. rewrite Heq in Hk.
    exact (loadAll_leaves_no_legacy_key Hhex _ _ _ H1 k j Hk). }
  split; [exact Hclean|]. intros k Hk. rewrite <- Heq in Hk.
  apply loadAll_inv in H2 as (st2a & st2b & Hpairs & Hvisit & -> & _).
  destruct (addPairs_run st2) as (st2a' & Hrun & _ & Hs & _).
  rewrite Hrun in Hpairs. inversion Hpairs; subst st2a'. clear Hpairs Hrun.
  destruct (addPairs_store_lookup (reg_getPairs (keyring st2)) (store st2))
    as [_ Horigin].
  rewrite <- Hs in Horigin.
  eapply forEach_loadRecord_keeps_keys; [exact Hvisit| |].
  - intros [k0 j0] Hin. simpl. apply elem_of_map_to_list in Hin.
    destruct (Horigin k0 j0 Hin) as [H0|(p & _ & -> & _)]; [by eapply Hclean|].
    apply (accountKey_not_legacy Hhex).
  - rewrite Hs. clear -Hk. revert Hk. generalize (store st2).
    induction (reg_getPairs (keyring st2)) as [|p l IH]; intros m Hk; [done|].
    simpl. apply IH. apply lookup_insert_is_Some.
    destruct (decide (accountKey (pair_address p) = k)); [by left|by right].
Qed.

End Bootstrap.

(** ** Option lists, continued *)

Section OptionsCoverage.
Context `{L : Lib}.

Lemma elem_of_headed (title : string) (xs : KeyringSectionOptions) (x : KeyringSectionOption) :
  x ∈ headed title xs <-> xs <> [] /\ (x = createOptionHeader title \/ x ∈ xs).
Proof.
  destruct xs as [|y ys]; simpl.
  - split; [by intros ?%elem_of_nil|by intros [? _]].
  - rewrite elem_of_cons. split; [by intros ?|by intros [_ ?]].
Qed.

Lemma headed_nil (title : string) (xs : KeyringSectionOptions) :
  headed title xs = [] <-> xs = [].
Proof. by destruct xs. Qed.

Lemma headed_length (title : string) (xs : KeyringSectionOptions) :
  (length (headed title xs) <= S (length xs))%nat.
Proof. destruct xs; simpl; lia. Qed.

(** X17.  A recomputation drops no entry and invents none: the option of
    every entry of either store is in [all]; everything in [all] is the
    option of an entry or one of the four section headers, and a header
    is there only with a non-empty section; [all] is empty exactly when
    both stores are, and has at most four items more than there are
    entries. *)
Theorem recomputeOptions_covers_every_entry (accs addrs : SubjectInfo) :
  let o := recomputeOptions accs addrs in
  (forall e, e ∈ subject_values accs \/ e ∈ subject_values addrs -> option_ e ∈ all o) /\
  (forall x, x ∈ all o ->
     (exists e, (e ∈ subject_values accs \/ e ∈ subject_values addrs) /\ x = option_ e) \/
     (x = createOptionHeader "Accounts" /\
      exists e, e ∈ subject_values accs /\ entryIsTesting e = false) \/
     (x = createOptionHeader "Development" /\
      exists e, e ∈ subject_values accs /\ entryIsTesting e = true) \/
     (x = createOptionHeader "Addresses" /\
      exists e, e ∈ subject_values addrs /\ entryIsRecent e = false) \/
     (x = createOptionHeader "Recent" /\
      exists e, e ∈ subject_values addrs /\ entryIsRecent e = true)) /\
  (all o = [] <-> subject_values accs = [] /\ subject_values addrs = []) /\
  (length (all o) <= length (subject_values accs) + length (subject_values addrs) + 4)%nat.
Proof.
  intros o. destruct (recomputeOptions_shape accs addrs) as (Ha & Hd & Hall & _).
  fold o in Ha, Hd, Hall. rewrite Hall, Ha, Hd. clear Ha Hd Hall.
  set (va := subject_values accs). set (vd := subject_values addrs).
  assert (Hin : forall (P : SingleAddress -> Prop) `{!forall e, Decision (P e)}
                  (v : list SingleAddress) x,
            x ∈ option_ <$> filter P v <-> exists e, e ∈ v /\ P e /\ x = option_ e).
  { intros P ? v x. rewrite list_elem_of_fmap. split.
    - intros (e & -> & He). apply list_elem_of_filter in He as [HP He]. by exists e.
    - intros (e & He & HP & ->). exists e. split; [done|]. by apply list_elem_of_filter. }
  assert (Hne : forall (P : SingleAddress -> Prop) `{!forall e, Decision (P e)}
                  (v : list SingleAddress),
            option_ <$> filter P v <> [] <-> exists e, e ∈ v /\ P e).
  { intros P ? v. split.
    - intros Hn. destruct (filter P v) as [|e es] eqn:Hf; [done|].
      exists e. assert (He : e ∈ filter P v) by (rewrite Hf; left).
      apply list_elem_of_filter in He as [HP He]. done.
    - intros (e & He & HP) Hnil. apply fmap_nil_inv in Hnil.
      assert (Hin' : e ∈ filter P v) by (by apply list_elem_of_filter).
      rewrite Hnil in Hin'. by apply elem_of_nil in Hin'. }
  split; [|split; [|split]].
  - intros e [He|He].
    + apply elem_of_app. left. destruct (entryIsTesting e) eqn:Ht.
      * apply elem_of_app. right. apply elem_of_headed. split.
        -- apply Hne. by exists e.
        -- right. apply Hin. by exists e.
      * apply elem_of_app. left. apply elem_of_headed. split.
        -- apply Hne. by exists e.
        -- right. apply Hin. by exists e.
    + apply elem_of_app. right. destruct (entryIsRecent e) eqn:Ht.
      * apply elem_of_app. right. apply elem_of_headed. split.
        -- apply Hne. by exists e.
        -- right. apply Hin. by exists e.
      * apply elem_of_app. left. apply elem_of_headed. split.
        -- apply Hne. by exists e.
        -- right. apply Hin. by exists e.
  - intros x Hx. rewrite !elem_of_app, !elem_of_headed in Hx.
    destruct Hx as [[[Hn [->|Hx]]|[Hn [->|Hx]]]|[[Hn [->|Hx]]|[Hn [->|Hx]]]];
      try (apply Hin in Hx as (e & He & _ & ->); left; exists e; by auto);
      apply Hne in Hn; right; tauto.
  - rewrite !app_nil, !headed_nil. split.
    + intros [[H1 H2] [H3 H4]].
      assert (Hva : va = []).
      { destruct va as [|e v]; [done|]. exfalso.
        destruct (entryIsTesting e) eqn:Ht.
        - apply (proj2 (Hne (fun e => entryIsTesting e = true) _ (e :: v))); [|done].
          exists e. split; [left|done].
        - apply (proj2 (Hne (fun e => entryIsTesting e = false) _ (e :: v))); [|done].
          exists e. split; [left|done]. }
      assert (Hvd : vd = []).
      { destruct vd as [|e v]; [done|]. exfalso.
        destruct (entryIsRecent e) eqn:Ht.
        - apply (proj2 (Hne (fun e => entryIsRecent e = true) _ (e :: v))); [|done].
          exists e. split; [left|done].
        - apply (proj2 (Hne (fun e => entryIsRecent e = false) _ (e :: v))); [|done].
          exists e. split; [left|done]. }
      done.
    + intros [-> ->]. done.
  - rewrite !length_app.
    pose proof (headed_length "Accounts"
                  (option_ <$> filter (fun e => entryIsTesting e = false) va)).
    pose proof (headed_length "Development"
                  (option_ <$> filter (fun e => entryIsTesting e = true) va)).
    pose proof (headed_length "Addresses"
                  (option_ <$> filter (fun e => entryIsRecent e = false) vd)).
    pose proof (headed_length "Recent"
                  (option_ <$> filter (fun e => entryIsRecent e = true) vd)).
    rewrite !length_fmap in *.
    assert (Hpa : (length (filter (fun e => entryIsTesting e = false) va) +
                   length (filter (fun e => entryIsTesting e = true) va) = length va)%nat).
    { clear. induction va as [|e v IH]; [done|].
      destruct (entryIsTesting e) eqn:Ht.
      - rewrite filter_cons_False by congruence. rewrite filter_cons_True by done.
        simpl. lia.
      - rewrite filter_cons_True by done. rewrite filter_cons_False by congruence.
        simpl. lia. }
    assert (Hpd : (length (filter (fun e => entryIsRecent e = false) vd) +
                   length (filter (fun e => entryIsRecent e = true) vd) = length vd)%nat).
    { clear. induction vd as [|e v IH]; [done|].
      destruct (entryIsRecent e) eqn:Ht.
      - rewrite filter_cons_False by congruence. rewrite filter_cons_True by done.
        simpl. lia.
      - rewrite filter_cons_True by done. rewrite filter_cons_False by congruence.
        simpl. lia. }
    lia.
Qed.

End OptionsCoverage.

(** ** The earlier loader *)

Section Legacy.
Context `{L : Lib}.

(** X18.  The visitor of the earlier [loadAll], on an address record.
    It throws when the record has a hex address of a length
    [encodeAddress] refuses, and otherwise returns: it decodes nothing.
    It then leaves the Address Store holding, under the record's address
    (its encoded form when the record had a hex address), the record with
    that address and with its own encoded material and metadata, and
    that record is persisted under the address key: what the
    [saveAddressMeta] it calls on the way stored is overwritten, so a
    stored [isRecent] survives.  The key of a record whose address was
    rewritten is removed, unless it is that address key.  No other entry
    of either store and nothing of the registry changes. *)
Theorem legacyLoadRecord_keeps_record_metadata (now : Z) (j : KeyringJson) (k : string)
    (st : St) :
  isAddressRecord k = true ->
  if isHex (address j) && negb (encodable (hexToU8a (address j))) then
    legacyLoadRecord now j k st = inl InvalidAddress
  else
    let a := if isHex (address j) then encodeAddress (hexToU8a (address j))
             else address j in
    let j' := {| address := a; encoded := encoded j; meta := meta j |} in
    exists st',
      legacyLoadRecord now j k st = inr (tt, st') /\
      subject_get a (addresses st') =
        Some {| json := j'; option_ := createOptionItem a j' |} /\
      store st' !! addressKey a = Some j' /\
      (a <> address j -> k <> addressKey a -> store st' !! k = None) /\
      (isHex (address j) = false -> j' = j) /\
      (forall b, b <> a -> subject_get b (addresses st') = subject_get b (addresses st)) /\
      accounts st' = accounts st /\
      keyring st' = keyring st.
Proof.
  intros Hrec. unfold isAddressRecord in Hrec.
  apply andb_true_iff in Hrec as [Hacc Haddr]. apply negb_true_iff in Hacc.
  unfold legacyLoadRecord. rewrite Hacc, Haddr.
  destruct (isHex (address j)) eqn:Hhex; simpl.
  - destruct (encodable (hexToU8a (address j))) eqn:Henc; simpl;
      [|unfold bind, encodeAddressOf; by rewrite Henc].
    unfold bind at 1, encodeAddressOf. rewrite Henc. unfold ret at 1.
    set (a := encodeAddress (hexToU8a (address j))).
    match goal with
    | |- context [@decide ?P ?i] => destruct (@decide P i) as [Hne|Heq]
    end.
    + unfold bind, store_remove, saveAddressMeta, gets, addresses_add, store_set, modify, ret.
      simpl. eexists. split; [reflexivity|]. simpl.
      split; [apply subject_get_add_eq|]. split; [apply lookup_insert_eq|].
      split.
      { intros _ Hk. rewrite !lookup_insert_ne by done. apply lookup_delete_eq. }
      split; [discriminate|]. split; [|done].
      intros b Hb. unfold subject_add. by rewrite !subject_get_put_ne.
    + assert (Haj : a = address j) by (destruct (decide (a = address j)); [done|tauto]).
      unfold bind, ret, addresses_add, store_set, modify. simpl.
      eexists. split; [reflexivity|]. simpl. rewrite <- Haj.
      assert (Hj : {| address := a; encoded := encoded j; meta := meta j |} = j)
        by (rewrite Haj; by destruct j).
      rewrite Hj.
      split; [apply subject_get_add_eq|]. split; [apply lookup_insert_eq|].
      split; [by intros Hne|]. split; [discriminate|]. split; [|done].
      intros b Hb. unfold subject_add. by rewrite subject_get_put_ne.
  - unfold bind at 1, ret at 1.
    match goal with
    | |- context [@decide ?P ?i] => destruct (@decide P i) as [Hne|_]; [done|]
    end.
    unfold bind, ret, addresses_add, store_set, modify. simpl.
    assert (Hj : {| address := address j; encoded := encoded j; meta := meta j |} = j)
      by (by destruct j).
    rewrite Hj.
    eexists. split; [reflexivity|]. simpl.
    split; [apply subject_get_add_eq|]. split; [apply lookup_insert_eq|].
    split; [done|]. split; [done|]. split; [|done].
    intros b Hb. unfold subject_add. by rewrite subject_get_put_ne.
Qed.

End Legacy.

(** ** The Backup modal *)

Section BackupModal.
Context `{L : Lib}.

Lemma backup_step_invariant (s : Backup.State) (ev : Backup.Event) :
  (Backup.isPassValid s = true -> Backup.validatePass (Backup.password s) = true) ->
  Backup.isPassValid (Backup.step s ev) = true ->
  Backup.validatePass (Backup.password (Backup.step s ev)) = true.
Proof.
  intros Hinv. destruct ev as [pw|[p|]]; simpl; [done| |done].
  unfold Backup.doBackup. destruct (backupAccount p (Backup.password s)) as [e|[j p']]; simpl.
  - discriminate.
  - done.
Qed.

(** X19.  Whatever the user does to the Backup modal, the Download button
    is enabled only while the password field holds between 1 and 32
    characters, a password the keyring's [isPassValid] accepts.  Pressing
    Download never edits the password; it closes the modal exactly when a
    file was saved, which is exactly when [backupAccount] returned, the
    file being named after the pair's address; and a press that fails
    disables the button. *)
Theorem backup_download_enabled_only_when_valid :
  (forall evs,
     Backup.downloadDisabled (Backup.run evs) = false ->
     Backup.validatePass (Backup.password (Backup.run evs)) = true /\
     isPassValid (Backup.password (Backup.run evs)) = true) /\
  (forall p s,
     let r := Backup.doBackup p s in
     Backup.password r.1 = Backup.password s /\
     (Backup.closed r.2 = true <-> is_Some (Backup.saved r.2)) /\
     (Backup.closed r.2 = true ->
      r.1 = s /\
      exists q j q',
        p = Some q /\ backupAccount q (Backup.password s) = inr (j, q') /\
        Backup.saved r.2 = Some (String.append (pair_address q') ".json", j)) /\
     (Backup.closed r.2 = false -> is_Some p -> Backup.downloadDisabled r.1 = true)).
Proof.
  split.
  - intros evs Hen.
    assert (Hinv : Backup.isPassValid (Backup.run evs) = true ->
                   Backup.validatePass (Backup.password (Backup.run evs)) = true).
    { clear Hen. unfold Backup.run.
      induction evs as [|ev evs IH] using rev_ind; [discriminate|].
      rewrite foldl_app. simpl. by apply backup_step_invariant. }
    unfold Backup.downloadDisabled in Hen. apply negb_false_iff in Hen.
    split; by apply Hinv.
  - intros p s r. subst r. unfold Backup.doBackup.
    destruct p as [q|]; simpl.
    + destruct (backupAccount q (Backup.password s)) as [e|[j q']] eqn:Hb; simpl.
      * split; [done|]. split; [split; [discriminate|by intros [? ?]]|].
        split; [discriminate|]. done.
      * split; [done|]. split; [split; [by eexists|done]|].
        split; [|discriminate]. intros _. split; [done|]. by exists q, j, q'.
    + split; [done|]. split; [split; [discriminate|by intros [? ?]]|].
      split; [discriminate|]. by intros _ [? ?].
Qed.

End BackupModal.

(** ** Further runs on the sample collaborators *)

Module RunsMore.
Import Sample SampleMore.

(** X4 at the sample. *)
Lemma saveRecent_forgetAddress_roundtrip_sample :
  exists e st1 st2,
    saveRecent 1000 "5Carol" emptySt = inr (Some e, st1) /\
    forgetAddress "5Carol" st1 = inr (tt, st2) /\
    addresses st2 = addresses emptySt /\
    accounts st2 = accounts emptySt /\
    keyring st2 = keyring emptySt.
Proof. exact (saveRecent_forgetAddress_roundtrip 1000 "5Carol" emptySt eq_refl). Defined.

(** X6 at the sample: a name is saved for a recent address. *)
Lemma saveAddressMeta_promotes_recent_sample :
  exists e1 st1 e2 st2,
    saveRecent 1000 "5Carol" emptySt = inr (Some e1, st1) /\
    saveAddressMeta 2000 "5Carol" {["name" := JString "Carol"]} st1 = inr (tt, st2) /\
    subject_get "5Carol" (addresses st2) = Some e2 /\
    entryIsRecent e1 = true /\
    entryIsRecent e2 = false /\
    getProp (meta (json e2)) "whenCreated" = JNumber 1000.
Proof.
  destruct (saveAddressMeta_promotes_recent 1000 2000 "5Carol"
              {["name" := JString "Carol"]} emptySt eq_refl)
    as (e1 & st1 & e2 & st2 & H1 & H2 & H3 & H4 & H5 & _ & H7 & _).
  exists e1, st1, e2, st2. repeat (split; [assumption|]). apply H7. reflexivity.
Defined.

(** X8 at the sample: saved at 1000, the password changed at 2000. *)
Lemma encryptAccount_stamps_whenEdited_sample :
  exists p1 st1 p2 st2 e,
    saveAccount 1000 alice (Some "secret"%string) emptySt = inr (p1, st1) /\
    encryptAccount 2000 p1 "changed" st1 = inr (p2, st2) /\
    subject_get "5Alice" (accounts st2) = Some e /\
    getProp (meta (json e)) "whenEdited" = JNumber 2000 /\
    getProp (meta (json e)) "whenCreated" = JNumber 1000.
Proof.
  eexists _, _, _, _.
  match goal with
  | |- exists e, _ /\ encryptAccount _ ?p1 _ ?st1 = inr (?p2, ?st2) /\ _ =>
      destruct (encryptAccount_stamps_whenEdited (laws := Runs.sample_pair_laws)
                  2000 p1 "changed" st1 p2 st2) as [(e & He & _ & Hedited & _) _];
        [reflexivity|]
  end.
  exists e. split; [reflexivity|]. split; [reflexivity|].
  split; [exact He|]. split; [exact Hedited|].
  simpl in He. inversion He. reflexivity.
Defined.

(** X10 at the sample: an account from a one-byte seed. *)
Lemma createAccount_saves_derived_pair_sample :
  exists p' st',
    createAccount 1000 [Byte.x41] None None emptySt = inr (p', st') /\
    isAvailable (AddrString "A") emptySt = true /\
    isAvailable (AddrString "A") st' = false /\
    createAccount 1000 [] None None emptySt = inl (AssertionError "Expected a valid seed").
Proof.
  destruct (createAccount_saves_derived_pair (laws := Runs.sample_pair_laws)
              1000 None None emptySt ltac:(lia)) as [Hseed _].
  pose proof (Hseed [Byte.x41]) as Hok. pose proof (Hseed []) as Hbad.
  eexists _, _. split; [reflexivity|]. split; [reflexivity|].
  split; [|exact Hbad].
  match goal with
  | |- isAvailable _ ?st' = false =>
      destruct (Hok (s_fromSeed [Byte.x41] (<["whenCreated" := JNumber 1000]> ∅)) st' eq_refl)
        as (_ & Hav & _)
  end.
  exact Hav.
Defined.

(** X11 at the sample: Alice's export restored with its password. *)
Lemma restoreAccount_checks_then_persists_sample :
  exists p' st',
    restoreAccount 1000 "5Alice" "0xsecret" ∅ "secret" emptySt = inr (p', st') /\
    pair_isLocked p' = true /\
    isAvailable (AddrString "5Alice") st' = false /\
    restoreAccount 1000 "5Alice" "0xsecret" ∅ "guess" emptySt = inl WrongPassword /\
    restoreAccount 1000 "" "0xsecret" ∅ "secret" emptySt = inl InvalidAddress.
Proof.
  pose proof (restoreAccount_checks_then_persists (laws := Runs.sample_lock_laws)
                1000 "5Alice" "0xsecret" ∅ "secret" emptySt ltac:(lia)) as Hok.
  pose proof (restoreAccount_checks_then_persists (laws := Runs.sample_lock_laws)
                1000 "5Alice" "0xsecret" ∅ "guess" emptySt ltac:(lia)) as Hwrong.
  pose proof (restoreAccount_checks_then_persists (laws := Runs.sample_lock_laws)
                1000 "" "0xsecret" ∅ "secret" emptySt ltac:(lia)) as Hbad.
  eexists _, _. split; [vm_compute; reflexivity|].
  match goal with
  | |- pair_isLocked ?p' = true /\ isAvailable _ ?st' = false /\ _ =>
      assert (Hrun : forall q st1,
                 restoreAccount 1000 "5Alice" "0xsecret" ∅ "secret" emptySt = inr (q, st1) ->
                 pair_isLocked q = true /\ isAvailable (AddrString "5Alice") st1 = false)
        by (hnf in Hok; intros q st1 Hq; destruct (Hok q st1 Hq) as (_ & Hl & Ha & _);
            by split);
        destruct (Hrun p' st' eq_refl) as [Hlocked Hav]
  end.
  split; [exact Hlocked|]. split; [exact Hav|]. split; [exact Hwrong|exact Hbad].
Defined.

(** X15 at the sample: the address record of [legacyStore]. *)
Lemma loadAll_loads_address_records_sample :
  exists st' u8a,
    loadAll (set_store legacyStore emptySt) = inr (tt, st') /\
    normalizedBytes (plainJson "0xcd" ∅) = Some u8a /\
    isAvailable (AddrBytes u8a) st' = false.
Proof.
  eexists _, _. split; [reflexivity|].
  match goal with
  | |- _ /\ isAvailable _ ?st' = false =>
      destruct (loadAll_loads_address_records (set_store legacyStore emptySt) tt st'
                  eq_refl "address:0xcd"%string (plainJson "0xcd" ∅) eq_refl eq_refl)
        as (b & _ & _ & _ & Hb & _ & _ & _ & _ & _ & Hav)
  end.
  assert (Heq : b = list_byte_of_string "0xcd") by (by inversion Hb).
  subst b. split; [reflexivity|exact Hav].
Defined.

End RunsMore.

(** ** Further runs on the strict collaborators *)

Module ChainRunsMore.
Import Chain.

(** X9 at the sample: Alice's pair is saved, then renamed. *)
Lemma saveAccountMeta_uses_persisted_record_sample :
  exists p1 st1 st2 e,
    saveAccount 1000 alicePair (Some "secret"%string) freshSt = inr (p1, st1) /\
    saveAccountMeta p1 {["name" := JString "savings"]} st1
      = inr (pair_setMeta {["name" := JString "savings"]} p1, st2) /\
    subject_get aliceAddress (accounts st2) = Some e /\
    encoded (json e) = Some "0x736563726574"%string /\
    getProp (meta (json e)) "name" = JString "savings" /\
    getProp (meta (json e)) "whenCreated" = JNumber 1000 /\
    store st2 !! accountKey aliceAddress = Some (json e) /\
    saveAccountMeta alicePair {["name" := JString "savings"]} freshSt = inl TypeError.
Proof.
  assert (Hret : returned (saveAccount 1000 alicePair (Some "secret"%string) freshSt) = true)
    by (vm_compute; reflexivity).
  pose proof (ChainRuns.returned_inr _ alicePair freshSt Hret) as Hsave.
  destruct (saveAccountMeta_uses_persisted_record (laws := ChainRuns.chain_pair_laws)
              1000 alicePair (Some "secret"%string) {["name" := JString "savings"]} freshSt
              _ _ ltac:(vm_compute; by eexists) Hsave)
    as [(st2 & e & Hrun & Hget & _ & Henc & Hmeta & Hstore & _) Hmissing].
  eexists _, _, st2, e. split; [exact Hsave|]. split; [exact Hrun|].
  split; [exact Hget|]. split; [rewrite Henc; vm_compute; reflexivity|].
  split; [rewrite Hmeta; vm_compute; reflexivity|].
  split; [rewrite Hmeta; vm_compute; reflexivity|].
  split; [exact Hstore|]. apply Hmissing. vm_compute. reflexivity.
Defined.

(** X14 at the sample: a contact whose address does not decode, an
    account whose encoded material is not hex, a key whose address
    segment is not an address. *)
Lemma loadAll_aborts_on_a_malformed_record_sample :
  (exists e, loadAll (set_store brokenContact freshSt) = inl e) /\
  (exists e, loadAll (set_store brokenAccount freshSt) = inl e) /\
  (exists e, loadAll (set_store {["account:ab" := aliceExport]} freshSt) = inl e).
Proof.
  split; [|split].
  - apply (loadAll_aborts_on_a_malformed_record (set_store brokenContact freshSt)
             (String.append "address:" bobPublicKey)
             {| address := "not an address"; encoded := None; meta := ∅ |}).
    + vm_compute. reflexivity.
    + intros p Hp. by apply elem_of_nil in Hp.
    + left. split; vm_compute; reflexivity.
  - apply (loadAll_aborts_on_a_malformed_record (set_store brokenAccount freshSt)
             (String.append "account:" alicePublicKey)
             {| address := aliceAddress; encoded := Some "sealed"%string; meta := ∅ |}).
    + vm_compute. reflexivity.
    + intros p Hp. by apply elem_of_nil in Hp.
    + right. right. left. split; [vm_compute; reflexivity|].
      split; [vm_compute; reflexivity|]. intros r. reflexivity.
  - apply (loadAll_aborts_on_a_malformed_record
             (set_store {["account:ab" := aliceExport]} freshSt)
             "account:ab" aliceExport).
    + vm_compute. reflexivity.
    + intros p Hp. by apply elem_of_nil in Hp.
    + right. right. right. split; [vm_compute; reflexivity|].
      exists "ab"%string. repeat split; vm_compute; reflexivity.
Defined.

(** X16 at the sample: a second load over what the first one left. *)
Lemma loadAll_migration_is_one_time_sample :
  exists st1 st3,
    loadAll (set_store addressKeyedStore freshSt) = inr (tt, st1) /\
    loadAll st1 = inr (tt, st3) /\
    (forall k j, store st1 !! k = Some j -> isLegacy k = false) /\
    is_Some (store st3 !! accountKey aliceAddress) /\
    is_Some (store st3 !! addressKey bobAddress).
Proof.
  assert (Hret1 : returned (loadAll (set_store addressKeyedStore freshSt)) = true)
    by (vm_compute; reflexivity).
  pose proof (ChainRuns.returned_unit _ freshSt Hret1) as H1.
  set (st1 := stateAfter freshSt (loadAll (set_store addressKeyedStore freshSt))) in *.
  assert (Hret3 : returned (loadAll st1) = true) by (vm_compute; reflexivity).
  pose proof (ChainRuns.returned_unit _ freshSt Hret3) as H3.
  destruct (loadAll_migration_is_one_time _ _ _ ChainRuns.chain_toHex_0x H1
              st1 _ _ eq_refl H3) as [Hclean Hkept].
  exists st1, (stateAfter freshSt (loadAll st1)).
  split; [exact H1|]. split; [exact H3|]. split; [exact Hclean|].
  split; apply Hkept; vm_compute; by eexists.
Defined.

(** X18 at the sample: a recent address saved under its public key is
    rewritten under its address and stays recent; a hex address of no
    length is refused. *)
Lemma legacyLoadRecord_keeps_record_metadata_sample :
  (exists st' e,
     legacyLoadRecord 1000 hexContact (String.append "address:" alicePublicKey) freshSt
       = inr (tt, st') /\
     subject_get aliceAddress (addresses st') = Some e /\
     address (json e) = aliceAddress /\
     getProp (meta (json e)) "isRecent" = JBool true /\
     store st' !! addressKey aliceAddress = Some (json e)) /\
  legacyLoadRecord 1000 {| address := "0x"; encoded := None; meta := ∅ |} "address:0x"
    freshSt = inl InvalidAddress.
Proof.
  split.
  - pose proof (legacyLoadRecord_keeps_record_metadata 1000 hexContact
                  (String.append "address:" alicePublicKey) freshSt
                  ltac:(vm_compute; reflexivity)) as H.
    assert (Hc : isHex (address hexContact)
                 && negb (encodable (hexToU8a (address hexContact))) = false)
      by (vm_compute; reflexivity).
    rewrite Hc in H. cbv zeta in H.
    assert (Ha : (if isHex (address hexContact)
                  then encodeAddress (hexToU8a (address hexContact))
                  else address hexContact) = aliceAddress) by (vm_compute; reflexivity).
    rewrite Ha in H.
    destruct H as (st' & Hrun & Hget & Hstore & _).
    eexists st', _. split; [exact Hrun|]. split; [exact Hget|].
    split; [reflexivity|]. split; [vm_compute; reflexivity|]. exact Hstore.
  - pose proof (legacyLoadRecord_keeps_record_metadata 1000
                  {| address := "0x"; encoded := None; meta := ∅ |} "address:0x" freshSt
                  ltac:(vm_compute; reflexivity)) as H.
    assert (Hc : isHex "0x" && negb (encodable (hexToU8a "0x")) = true)
      by (vm_compute; reflexivity).
    cbn [address] in H. rewrite Hc in H. exact H.
Defined.

End ChainRunsMore.
